(** * WineQuality.utils.common: configuration and artifact I/O helpers

    A shallow embedding of [src/WineQuality/utils/common.py] and the
    properties of its seven public functions: [read_yaml],
    [create_directories], [save_json], [load_json], [save_bin], [load_bin]
    and [get_size].

    The functions are effectful: they read and write the file system, the
    module-level dictionary [_yaml_cache] and the logger.  They are embedded
    in a state-and-exception monad over a [world] that holds the three, with
    a trace that records file opens, [mkdir] system calls, log records and
    cache assignments in program order.

    Third-party code (PyYAML, the concrete syntax of JSON, joblib, the
    iterable branch of python-box) is not part of the repository: it is
    taken as a parameter, the class [Libs]. *)

From stdpp Require Import gmap strings list fin_maps pretty.
From Stdlib Require Import ZArith Lia SpecFloat.

Open Scope string_scope.
Set Warnings "-register-all".

(** ** Python values *)

(** A [pathlib.Path], by its parts.  Two paths are equal, and hash alike,
    when their parts are; the empty list is the current directory.  Paths
    are taken without [.] and [..] segments. *)
Abbreviation path := (list string).

(** [str(path)] *)
Definition path_str (p : path) : string :=
  match p with
  | [] => "."
  | _ => String.concat "/" p
  end.

(** Dictionary keys: strings and integers. *)
Inductive pykey :=
  | KStr (s : string)
  | KInt (n : Z).

Global Instance pykey_eq_dec : EqDecision pykey.
Proof. solve_decision. Defined.

(** The objects that flow through the module.  A dictionary keeps its
    items in insertion order; [PBox] is a [ConfigBox], a subclass of
    [dict]; a [float] is a binary64 number, by its sign, mantissa and
    exponent. *)
Inductive pyval :=
  | PNone
  | PBool (b : bool)
  | PInt (n : Z)
  | PStr (s : string)
  | PPath (p : path)
  | PList (l : list pyval)
  | PTuple (l : list pyval)
  | PDict (d : list (pykey * pyval))
  | PBox (d : list (pykey * pyval))
  | PFloat (x : spec_float).

(** The items of a [ConfigBox]. *)
Abbreviation ConfigBox := (list (pykey * pyval)).

(** [d[k] = v] on an insertion-ordered dictionary: an existing key keeps
    its position and takes the new value, a new key goes to the end. *)
Fixpoint dict_set (d : ConfigBox) (k : pykey) (v : pyval) : ConfigBox :=
  match d with
  | [] => [(k, v)]
  | (k', v') :: d' =>
      if decide (k' = k) then (k', v) :: d' else (k', v') :: dict_set d' k v
  end.

(** [str(k)] of a key, as [json.dump] writes it. *)
Definition key_str (k : pykey) : string :=
  match k with
  | KStr s => s
  | KInt n => pretty n
  end.

(** ** Exceptions *)

Inductive oserr := ENOENT | EISDIR | ENOTDIR | EEXIST | EACCES.

Inductive exn :=
  | EnsureError (msg : string)
  | TypeError (msg : string)
  | ValueError (msg : string)
  | BoxValueError (msg : string)
  | OSError (errno : oserr) (filename : path)
  | YAMLError (msg : string)
  | JSONDecodeError (msg : string)
  | PickleError (msg : string).

Definition strerror (e : oserr) : string :=
  match e with
  | ENOENT => "[Errno 2] No such file or directory"
  | EISDIR => "[Errno 21] Is a directory"
  | ENOTDIR => "[Errno 20] Not a directory"
  | EEXIST => "[Errno 17] File exists"
  | EACCES => "[Errno 13] Permission denied"
  end.

(** [str(e)], what the f-string [{e}] prints. *)
Definition str_exn (e : exn) : string :=
  match e with
  | EnsureError m | TypeError m | ValueError m | BoxValueError m
  | YAMLError m | JSONDecodeError m | PickleError m => m
  | OSError c p => strerror c +:+ ": '" +:+ path_str p +:+ "'"
  end.

(** ** JSON documents *)

Inductive json :=
  | JNull
  | JBool (b : bool)
  | JNum (n : Z)
  | JStr (s : string)
  | JArr (l : list json)
  | JObj (l : list (string * json))
  | JFloat (x : spec_float).

(** ** Observable effects *)

Inductive level := INFO | ERROR.
Inductive mode := Rd | Wr.

Inductive event :=
  | EvOpen (p : path) (m : mode)
  | EvMkdir (p : path)
  | EvLog (l : level) (msg : string)
  | EvCache (p : path).

Inductive node (bytes : Type) :=
  | Dir
  | File (b : bytes).
Arguments Dir {bytes}.
Arguments File {bytes} b.

(** The libraries and the environment the module runs against.  [bytes]
    is what a file holds. *)
Class Libs (bytes : Type) := {
  (** [st_size] of a file's content, and of a directory *)
  size_of : bytes → N;
  dir_size : N;
  (** the content of a file just opened with mode ["w"] *)
  bytes_empty : bytes;
  (** [yaml.safe_load] on the content of a file *)
  yaml_safe_load : bytes → exn + pyval;
  (** the text [json.dump(_, indent=4)] writes for a document; what it has
      written when the encoder gives up on an object; [json.load]'s parser *)
  json_print : json → bytes;
  json_partial : pyval → bytes;
  json_parse : bytes → exn + json;
  (** [joblib.dump]: the bytes written, and the exception when pickling
      broke off; [joblib.load] on the content of a file *)
  joblib_dumps : pyval → bytes * option exn;
  joblib_loads : bytes → exn + pyval;
  (** [Box.__init__] on an iterable of key-value pairs *)
  box_of_iterable : list pyval → exn + ConfigBox;
  (** the parts of a path given as a [str] *)
  fspath_str : string → path;
  (** paths the process may not open or create *)
  denied : path → bool
}.

Section Common.
Context {bytes : Type} {L : Libs bytes}.

(** ** The world and its monad *)

Record world := World {
  fs : gmap path (node bytes);
  yaml_cache : gmap path ConfigBox;
  trace : list event
}.

Definition M (A : Type) : Type := world → (exn + A) * world.

Definition ret {A} (x : A) : M A := λ w, (inr x, w).
Definition raise {A} (e : exn) : M A := λ w, (inl e, w).
Definition bind {A B} (m : M A) (k : A → M B) : M B :=
  λ w, match m w with
       | (inr x, w') => k x w'
       | (inl e, w') => (inl e, w')
       end.

(** [try: m except Exception as e: h e] *)
Definition try_except {A} (m : M A) (h : exn → M A) : M A :=
  λ w, match m w with
       | (inl e, w') => h e w'
       | r => r
       end.

Local Notation "x <- m ;; k" := (bind m (λ x, k))
  (at level 100, m at next level, right associativity).
Local Notation "m ;;; k" := (bind m (λ _, k))
  (at level 100, right associativity).

(** The world after further events. *)
Definition add_trace (w : world) (evs : list event) : world :=
  World (fs w) (yaml_cache w) (trace w ++ evs).

Definition emit (ev : event) : M unit := λ w, (inr tt, add_trace w [ev]).

(** The number of error-level records in a trace. *)
Definition is_error (ev : event) : bool :=
  match ev with
  | EvLog ERROR _ => true
  | _ => false
  end.

Definition error_lines (t : list event) : nat := length (filter is_error t).

(** Modelled from the spec: the logging sink [WineQuality.logger], whose
    module is not among the sources.  It accepts leveled text messages and
    appends them to the log. *)
Definition logger_info (msg : string) : M unit := emit (EvLog INFO msg).
Definition logger_error (msg : string) : M unit := emit (EvLog ERROR msg).

(** ** File-system primitives *)

Definition node_at (f : gmap path (node bytes)) (p : path) : option (node bytes) :=
  match p with
  | [] => Some Dir
  | _ => f !! p
  end.

Definition parent (p : path) : path := removelast p.

(** The error of a system call on a path that cannot be resolved:
    [ENOTDIR] when a segment before the last is a regular file, [ENOENT]
    when one is missing. *)
Definition errno_unresolved (f : gmap path (node bytes)) (p : path) : oserr :=
  if existsb (λ k, match node_at f (take k p) with
                   | Some (File _) => true
                   | _ => false
                   end) (seq 0 (length p))
  then ENOTDIR else ENOENT.

Definition set_node (p : path) (n : node bytes) : M unit :=
  λ w, (inr tt, World (<[p := n]> (fs w)) (yaml_cache w) (trace w)).

(** [os.path.exists] *)
Definition path_exists (p : path) : M bool :=
  λ w, (inr (bool_decide (is_Some (node_at (fs w) p))), w).

(** [os.path.isdir] *)
Definition path_isdir (p : path) : M bool :=
  λ w, (inr (match node_at (fs w) p with Some Dir => true | _ => false end), w).

(** What [open(p)] gives on a file system: the content of the file, or
    the error of the system call. *)
Definition read_file (f : gmap path (node bytes)) (p : path) : exn + bytes :=
  match node_at f p with
  | None => inl (OSError (errno_unresolved f p) p)
  | Some Dir => inl (OSError EISDIR p)
  | Some (File b) => if denied p then inl (OSError EACCES p) else inr b
  end.

(** [open(p)] followed by reading the whole file *)
Definition open_read (p : path) : M bytes :=
  emit (EvOpen p Rd) ;;;
  λ w, (read_file (fs w) p, w).

(** [open(p, "w")]: the file is created, or truncated *)
Definition open_write (p : path) : M unit :=
  emit (EvOpen p Wr) ;;;
  λ w, match node_at (fs w) p with
       | Some Dir => (inl (OSError EISDIR p), w)
       | _ =>
           match node_at (fs w) (parent p) with
           | None => (inl (OSError (errno_unresolved (fs w) p) p), w)
           | Some (File _) => (inl (OSError ENOTDIR p), w)
           | Some Dir =>
               if denied p then (inl (OSError EACCES p), w)
               else set_node p (File bytes_empty) w
           end
       end.

(** [os.path.getsize] *)
Definition getsize (p : path) : M N :=
  λ w, match node_at (fs w) p with
       | None => (inl (OSError (errno_unresolved (fs w) p) p), w)
       | Some Dir => (inr dir_size, w)
       | Some (File b) => (inr (size_of b), w)
       end.

(** The [mkdir] system call *)
Definition mkdir (p : path) : M unit :=
  emit (EvMkdir p) ;;;
  λ w, match node_at (fs w) p with
       | Some _ => (inl (OSError EEXIST p), w)
       | None =>
           match node_at (fs w) (parent p) with
           | None => (inl (OSError (errno_unresolved (fs w) p) p), w)
           | Some (File _) => (inl (OSError ENOTDIR p), w)
           | Some Dir =>
               if denied p then (inl (OSError EACCES p), w)
               else set_node p Dir w
           end
       end.

(** The last step of [os.makedirs(name, exist_ok=True)]: [mkdir(name)],
    any [OSError] of which is dropped when [name] is a directory. *)
Definition mkdir_exist_ok (p : path) : M unit :=
  try_except (mkdir p)
    (λ e, match e with
          | OSError _ _ =>
              d <- path_isdir p ;; if d then ret tt else raise e
          | _ => raise e
          end).

(** [os.makedirs(name, exist_ok=True)], by recursion on the reversed
    path: the leaf is the head of [rp], the parent its tail. *)
Fixpoint makedirs_rev (rp : list string) : M unit :=
  match rp with
  | [] => mkdir_exist_ok []
  | _ :: rhead =>
      ex <- path_exists (rev rhead) ;;
      (if ex then ret tt
       else try_except (makedirs_rev rhead)
              (λ e, match e with
                    | OSError EEXIST _ => ret tt
                    | _ => raise e
                    end)) ;;;
      mkdir_exist_ok (rev rp)
  end.

Definition makedirs (p : path) : M unit := makedirs_rev (rev p).

(** ** python-box *)

(** [ConfigBox(content)]: a string is refused, a mapping is copied item by
    item, another iterable is read as key-value pairs, anything else is
    refused.  A nested mapping is kept as the value it is: the [Box] made
    of it compares equal to it. *)
Definition Box_init (content : pyval) : exn + ConfigBox :=
  match content with
  | PStr _ => inl (BoxValueError "Cannot extrapolate Box from string")
  | PDict d | PBox d => inr (fold_left (λ b kv, dict_set b kv.1 kv.2) d [])
  | PList l | PTuple l => box_of_iterable l
  | PNone | PBool _ | PInt _ | PPath _ | PFloat _ =>
      inl (BoxValueError "First argument must be mapping or iterable")
  end.

Definition lift {A} (r : exn + A) : M A := λ w, (r, w).

(** ** read_yaml *)

Definition cache_store (p : path) (c : ConfigBox) : M unit :=
  (λ w, (inr tt, World (fs w) (<[p := c]> (yaml_cache w)) (trace w))) ;;;
  emit (EvCache p).

Definition msg_cached (p : path) : string :=
  "yaml file: " +:+ path_str p +:+ " retrieved from cache".
Definition msg_loaded (p : path) : string :=
  "yaml file: " +:+ path_str p +:+ " loaded successfully".
Definition msg_yaml_error (p : path) (e : exn) : string :=
  "Error reading YAML file at " +:+ path_str p +:+ ": " +:+ str_exn e.

Definition EmptyDocument : exn := ValueError "yaml file is empty".

(** The body of [read_yaml], lines 31 to 50. *)
Definition read_yaml_body (path_to_yaml : path) : M ConfigBox :=
  λ w,
    match yaml_cache w !! path_to_yaml with
    | Some config =>
        (logger_info (msg_cached path_to_yaml) ;;; ret config) w
    | None =>
        try_except
          (yaml_file <- open_read path_to_yaml ;;
           content <- lift (yaml_safe_load yaml_file) ;;
           logger_info (msg_loaded path_to_yaml) ;;;
           config <- lift (Box_init content) ;;
           cache_store path_to_yaml config ;;;
           ret config)
          (λ e, match e with
                | BoxValueError _ => raise EmptyDocument
                | _ => logger_error (msg_yaml_error path_to_yaml e) ;;; raise e
                end) w
    end.

(** ** ensure_annotations *)

(** The annotations that occur in the module. *)
Inductive templ := TPath | TList | TDict | TStr | TConfigBox | TAny.

(** [isinstance(v, t)].  A [ConfigBox] is a [dict]; [typing.Any] cannot be
    used with [isinstance] and raises. *)
Definition isinstance (v : pyval) (t : templ) : exn + bool :=
  match t, v with
  | TAny, _ => inl (TypeError "typing.Any cannot be used with isinstance()")
  | TPath, PPath _ => inr true
  | TList, PList _ => inr true
  | TDict, (PDict _ | PBox _) => inr true
  | TStr, PStr _ => inr true
  | TConfigBox, PBox _ => inr true
  | _, _ => inr false
  end.

(** The message of an [EnsureError], without the type names it also
    prints. *)
Definition msg_ensure (arg : string) : string :=
  "Argument " +:+ arg +:+ " does not match annotation type".

(** The loop over the annotated arguments in [WrappedFunction.__call__]. *)
Fixpoint check_args (args : list (string * pyval * templ)) : exn + unit :=
  match args with
  | [] => inr tt
  | (arg, value, t) :: rest =>
      match isinstance value t with
      | inl e => inl e
      | inr false => inl (EnsureError (msg_ensure arg))
      | inr true => check_args rest
      end
  end.

Definition check_return (value : pyval) (t : templ) : exn + unit :=
  match isinstance value t with
  | inl e => inl e
  | inr false => inl (EnsureError "Return value does not match annotation type")
  | inr true => inr tt
  end.

(** A function decorated with [@ensure_annotations]: the annotated
    arguments are checked, the function runs, and its result is checked when
    the return type is annotated. *)
Definition ensure_annotations {A} (args : list (string * pyval * templ))
    (return_templ : option templ) (to_py : A → pyval) (f : M A) : M A :=
  lift (check_args args) ;;;
  return_val <- f ;;
  match return_templ with
  | None => ret return_val
  | Some t => lift (check_return (to_py return_val) t) ;;; ret return_val
  end.

(** The body of a decorated function is entered only with arguments that
    passed the check; on any other it is not defined. *)
Definition as_path (v : pyval) : exn + path :=
  match v with
  | PPath p => inr p
  | _ => inl (TypeError "not a Path")
  end.

Definition read_yaml (path_to_yaml : pyval) : M ConfigBox :=
  ensure_annotations [("path_to_yaml", path_to_yaml, TPath)] (Some TConfigBox) PBox
    (p <- lift (as_path path_to_yaml) ;; read_yaml_body p).

(** ** create_directories *)

(** [str(v)] of a list element, and the path it names: [os.path.exists]
    and [os.makedirs] take a [str] or a [Path]; other objects are refused
    (integers, which [os.path.exists] reads as file descriptors, are not
    modelled apart). *)
Definition pystr (v : pyval) : string :=
  match v with
  | PStr s => s
  | PPath p => path_str p
  | _ => ""
  end.

Definition fspath (v : pyval) : exn + path :=
  match v with
  | PStr s => inr (fspath_str s)
  | PPath p => inr p
  | _ => inl (TypeError "expected str, bytes or os.PathLike object")
  end.

Definition when (b : bool) (m : M unit) : M unit := if b then m else ret tt.

(** The loop of [create_directories], lines 61 to 67. *)
Fixpoint create_directories_body (path_to_directories : list pyval)
    (verbose : bool) : M unit :=
  match path_to_directories with
  | [] => ret tt
  | v :: rest =>
      p <- lift (fspath v) ;;
      ex <- path_exists p ;;
      (if negb ex then
         makedirs p ;;;
         when verbose (logger_info ("Created directory at: " +:+ pystr v))
       else
         when verbose (logger_info ("Directory already exists at: " +:+ pystr v))) ;;;
      create_directories_body rest verbose
  end.

Definition as_list (v : pyval) : exn + list pyval :=
  match v with
  | PList l => inr l
  | _ => inl (TypeError "not a list")
  end.

Definition create_directories (path_to_directories : pyval) (verbose : bool) : M unit :=
  ensure_annotations [("path_to_directories", path_to_directories, TList)] None (λ _, PNone)
    (l <- lift (as_list path_to_directories) ;; create_directories_body l verbose).

(** ** JSON artifacts *)

(** [f] on every element, stopping at the first exception. *)
Fixpoint seq_map {A B} (f : A → exn + B) (l : list A) : exn + list B :=
  match l with
  | [] => inr []
  | x :: l' =>
      match f x with
      | inl e => inl e
      | inr y =>
          match seq_map f l' with
          | inl e => inl e
          | inr ys => inr (y :: ys)
          end
      end
  end.

(** The document [json.dump] writes for an object: tuples become arrays,
    integer keys become strings, a [Path] is not serializable. *)
Fixpoint json_of_py (v : pyval) : exn + json :=
  match v with
  | PNone => inr JNull
  | PBool b => inr (JBool b)
  | PInt n => inr (JNum n)
  | PStr s => inr (JStr s)
  | PFloat x => inr (JFloat x)
  | PPath _ => inl (TypeError "Object of type PosixPath is not JSON serializable")
  | PList l | PTuple l =>
      match seq_map json_of_py l with
      | inl e => inl e
      | inr js => inr (JArr js)
      end
  | PDict d | PBox d =>
      match seq_map (λ kv, match kv with
                           | (k, x) =>
                               match json_of_py x with
                               | inl e => inl e
                               | inr j => inr (key_str k, j)
                               end
                           end) d with
      | inl e => inl e
      | inr js => inr (JObj js)
      end
  end.

(** The object [json.load] builds from a document: the members of an
    object are assigned to a [dict] in order. *)
Fixpoint py_of_json (j : json) : pyval :=
  match j with
  | JNull => PNone
  | JBool b => PBool b
  | JNum n => PInt n
  | JStr s => PStr s
  | JFloat x => PFloat x
  | JArr l => PList (map py_of_json l)
  | JObj l =>
      PDict (fold_left (λ d kv, dict_set d (KStr kv.1) kv.2)
               (map (λ kv, match kv with (k, x) => (k, py_of_json x) end) l) [])
  end.



Definition as_dict (v : pyval) : exn + pyval :=
  match v with
  | PDict _ | PBox _ => inr v
  | _ => inl (TypeError "not a dict")
  end.

Definition save_json_body (p : path) (data : pyval) : M unit :=
  open_write p ;;;
  match json_of_py data with
  | inr j => set_node p (File (json_print j))
  | inl e => set_node p (File (json_partial data)) ;;; raise e
  end ;;;
  logger_info ("JSON file saved at: " +:+ path_str p).

Definition save_json (p data : pyval) : M unit :=
  ensure_annotations [("path", p, TPath); ("data", data, TDict)] None (λ _, PNone)
    (p' <- lift (as_path p) ;; d <- lift (as_dict data) ;; save_json_body p' d).

Definition load_json_body (p : path) : M ConfigBox :=
  f <- open_read p ;;
  j <- lift (json_parse f) ;;
  logger_info ("JSON file loaded successfully from: " +:+ path_str p) ;;;
  lift (Box_init (py_of_json j)).

Definition load_json (p : pyval) : M ConfigBox :=
  ensure_annotations [("path", p, TPath)] (Some TConfigBox) PBox
    (p' <- lift (as_path p) ;; load_json_body p').

(** ** Binary artifacts *)

Definition save_bin_body (data : pyval) (p : path) : M unit :=
  open_write p ;;;
  set_node p (File (joblib_dumps data).1) ;;;
  match (joblib_dumps data).2 with
  | Some e => raise e
  | None => ret tt
  end ;;;
  logger_info ("Binary file saved at: " +:+ path_str p).

Definition save_bin (data p : pyval) : M unit :=
  ensure_annotations [("data", data, TAny); ("path", p, TPath)] None (λ _, PNone)
    (p' <- lift (as_path p) ;; save_bin_body data p').

Definition load_bin_body (p : path) : M pyval :=
  f <- open_read p ;;
  data <- lift (joblib_loads f) ;;
  logger_info ("Binary file loaded from: " +:+ path_str p) ;;;
  ret data.

Definition load_bin (p : pyval) : M pyval :=
  ensure_annotations [("path", p, TPath)] (Some TAny) id
    (p' <- lift (as_path p) ;; load_bin_body p').

(** ** get_size *)

(** The integer [q] with [q / 100] the decimal that [f"{num / den:.2f}"]
    prints: the quotient rounded to hundredths, a tie going to the even
    digit.  [den] is a power of two, so the division of the two integers is
    exact in double precision as long as [num] is below [2^53]. *)
Definition round_2f (num den : N) : N :=
  let q := (100 * num / den)%N in
  let r := (100 * num mod den)%N in
  if (2 * r <? den)%N then q
  else if (den <? 2 * r)%N then (q + 1)%N
  else if N.even q then q else (q + 1)%N.

(** The numeral of [q / 100] with two digits after the point. *)
Definition decimal_2 (q : N) : string :=
  pretty (q / 100)%N +:+ "." +:+ pretty (q mod 100 / 10)%N +:+ pretty (q mod 10)%N.

Definition format_2f (num den : N) : string := decimal_2 (round_2f num den).

Definition get_size_body (p : path) : M string :=
  size_in_bytes <- getsize p ;;
  if (size_in_bytes <? 1024)%N then
    ret (pretty size_in_bytes +:+ " bytes")
  else if (size_in_bytes <? 1024 ^ 2)%N then
    ret ("~ " +:+ format_2f size_in_bytes 1024 +:+ " KB")
  else
    ret ("~ " +:+ format_2f size_in_bytes (1024 ^ 2) +:+ " MB").

Definition get_size (p : pyval) : M string :=
  ensure_annotations [("path", p, TPath)] (Some TStr) PStr
    (p' <- lift (as_path p) ;; get_size_body p').

(** ** Notions used in the statements *)

(** The two [except] clauses of [read_yaml]. *)
Definition handler (p : path) (e : exn) : M ConfigBox :=
  match e with
  | BoxValueError _ => raise EmptyDocument
  | _ => λ w, (inl e, add_trace w [EvLog ERROR (msg_yaml_error p e)])
  end.

(** The exception comes from one of the three steps inside the [try]:
    opening the file, parsing it, or building the [ConfigBox]. *)
Definition raised_in_try (w : world) (p : path) (e : exn) : Prop :=
  read_file (fs w) p = inl e ∨
  ∃ b, read_file (fs w) p = inr b ∧
    (yaml_safe_load b = inl e ∨
     ∃ content, yaml_safe_load b = inr content ∧ Box_init content = inl e).

(** [w'] is [w] with some absent paths turned into directories. *)
Definition grows (w w' : world) : Prop :=
  yaml_cache w' = yaml_cache w ∧
  ∀ q, node_at (fs w') q = node_at (fs w) q ∨
       (node_at (fs w) q = None ∧ node_at (fs w') q = Some Dir).

(** The records of a call that finds every directory in place. *)
Definition exists_records (l : list pyval) (verbose : bool) : list event :=
  if verbose
  then map (λ v, EvLog INFO ("Directory already exists at: " +:+ pystr v)) l
  else [].


(** The value is not an instance of the annotated type. *)
Definition mismatch (v : pyval) (t : templ) : Prop := isinstance v t = inr false.

(** ** template.py: the project skeleton *)

(** [logging.info] on the root logger, which line 7 configures at level
    [INFO]. *)
Definition logging_info (msg : string) : M unit := emit (EvLog INFO msg).

(** The second component of [os.path.split(filepath)]: the last part, or
    ["."] for [Path("")]. *)
Definition filename_of (filepath : path) : string :=
  match last filepath with
  | Some s => s
  | None => "."
  end.

(** The body of the loop of [template.py], lines 41 to 58, in its two
    statements.  [filedir], the first component of
    [os.path.split(filepath)], is the parent; it is the empty string when
    the path has at most one part. *)
Definition template_dir (filepath : path) : M unit :=
  let filedir := parent filepath in
  if decide (filedir = []) then ret tt
  else
    makedirs filedir ;;;
    logging_info ("Creating directory; " +:+ path_str filedir
                  +:+ " for the file: " +:+ filename_of filepath).

Definition template_file (filepath : path) : M unit :=
  ex <- path_exists filepath ;;
  create <- (if negb ex then ret true
             else size <- getsize filepath ;; ret (size =? 0)%N) ;;
  if create : bool then
    open_write filepath ;;;
    logging_info ("Creating empty file: " +:+ path_str filepath)
  else
    logging_info (filename_of filepath +:+ " already exists").

Definition template_step (filepath : path) : M unit :=
  template_dir filepath ;;; template_file filepath.

(** The loop, line 39. *)
Fixpoint template_loop (files : list path) : M unit :=
  match files with
  | [] => ret tt
  | filepath :: rest => template_step filepath ;;; template_loop rest
  end.

(** ** Further notions used in the statements *)

(** Every entry of the file system lies in a directory. *)
Definition wf_fs (f : gmap path (node bytes)) : Prop :=
  ∀ q n, node_at f q = Some n → node_at f (parent q) = Some Dir.

(** [w'] is [w] after directories were created and empty files created or
    truncated, each in a directory: every path holds what it held, or is a
    new directory, or is an empty file that was absent or empty. *)
Definition evolves (w w' : world) : Prop :=
  yaml_cache w' = yaml_cache w ∧
  ∀ q, node_at (fs w') q = node_at (fs w) q ∨
       (node_at (fs w') (parent q) = Some Dir ∧
        ((node_at (fs w) q = None ∧ node_at (fs w') q = Some Dir) ∨
         (node_at (fs w') q = Some (File bytes_empty) ∧ denied q = false ∧
          (node_at (fs w) q = None ∨
           ∃ b, node_at (fs w) q = Some (File b) ∧ size_of b = 0%N)))).

(** [w'] is [w] with some absent paths turned into directories, each
    inside a directory; nothing else differs but the trace. *)
Definition mkdirs_only (w w' : world) : Prop :=
  yaml_cache w' = yaml_cache w ∧
  ∀ q, node_at (fs w') q = node_at (fs w) q ∨
       (node_at (fs w) q = None ∧ node_at (fs w') q = Some Dir ∧
        node_at (fs w') (parent q) = Some Dir).

(** The [mkdir] system calls in a trace. *)
Definition is_mkdir (ev : event) : bool :=
  match ev with
  | EvMkdir _ => true
  | _ => false
  end.

(** All that [m] does to the trace is to append events that satisfy [P]. *)
Definition appends {A} (P : event → bool) (m : M A) : Prop :=
  ∀ w r w', m w = (r, w') →
    ∃ evs, trace w' = (trace w ++ evs)%list ∧ forallb P evs = true.

(** What [template.py] leaves at a path it has processed: a directory, a
    file that is not empty, or an empty file it may write, in each case
    inside a directory. *)
Definition settled (w : world) (p : path) : Prop :=
  node_at (fs w) (parent p) = Some Dir ∧
  ((node_at (fs w) p = Some Dir ∧ dir_size ≠ 0%N) ∨
   (∃ b, node_at (fs w) p = Some (File b) ∧ size_of b ≠ 0%N) ∨
   (node_at (fs w) p = Some (File bytes_empty) ∧ denied p = false)).

(** [m] leaves the component [g] of the world as it is, however it
    ends. *)
Definition leaves {X A} (g : world → X) (m : M A) : Prop :=
  ∀ w r w', m w = (r, w') → g w' = g w.

(** A test for [wf_fs] on a given file system. *)
Definition wf_fsb (f : gmap path (node bytes)) : bool :=
  forallb (λ q, match node_at f (parent q) with
                | Some Dir => true
                | _ => false
                end) (map_to_list f).*1.

(** The informational records in a trace. *)
Definition is_info (ev : event) : bool :=
  match ev with
  | EvLog INFO _ => true
  | _ => false
  end.

Definition info_lines (t : list event) : nat := length (filter is_info t).

(** The contents for which [ConfigBox] raises [BoxValueError]: [None] and
    the scalars. *)
Definition is_scalar (v : pyval) : bool :=
  match v with
  | PNone | PBool _ | PInt _ | PStr _ | PPath _ | PFloat _ => true
  | _ => false
  end.

(** The objects [json.dump] writes and [json.load] reads back as they
    are: as [json_native], with any float. *)
Fixpoint json_plain (v : pyval) : bool :=
  match v with
  | PNone | PBool _ | PInt _ | PStr _ | PFloat _ => true
  | PList l => forallb json_plain l
  | PDict d =>
      forallb (λ kv, match kv with
                     | (KStr _, x) => json_plain x
                     | _ => false
                     end) d
      && bool_decide (NoDup d.*1)
  | PPath _ | PTuple _ | PBox _ => false
  end.

End Common.

Arguments world : clear implicits.
Arguments M : clear implicits.

(** ** A test double for the libraries

    File contents tagged by what wrote them, with parsers that accept their
    own output; enough to run the functions on concrete inputs. *)

Inductive sample_bytes :=
  | SText (s : string)
  | SJson (j : json)
  | SPartial (v : pyval)
  | SPickle (v : pyval)
  | SZeros (n : N).

Definition sample_yaml (b : sample_bytes) : exn + pyval :=
  match b with
  | SText "" | SZeros 0 => inr PNone
  | SText "a: 1" => inr (PDict [(KStr "a", PInt 1)])
  | SText "hello" => inr (PStr "hello")
  | SJson j => inr (py_of_json j)
  | _ => inl (YAMLError "could not parse the document")
  end.

Definition sample_size (b : sample_bytes) : N :=
  match b with
  | SText s => N.of_nat (String.length s)
  | SZeros n => n
  | _ => 2
  end.

Global Instance sample_libs : Libs sample_bytes := {|
  size_of := sample_size;
  dir_size := 4096;
  bytes_empty := SZeros 0;
  yaml_safe_load := sample_yaml;
  json_print := SJson;
  json_partial := SPartial;
  json_parse b := match b with
                  | SJson j => inr j
                  | _ => inl (JSONDecodeError "Expecting value")
                  end;
  joblib_dumps v := (SPickle v, None);
  joblib_loads b := match b with
                    | SPickle v => inr v
                    | _ => inl (PickleError "invalid load key")
                    end;
  box_of_iterable l := match l with
                       | [] => inr []
                       | _ => inl (TypeError "cannot unpack non-iterable object")
                       end;
  fspath_str s := [s];
  denied _ := false
|}.

(** A project directory: a configuration file, an empty parameter file,
    a file with a bare scalar, and a regular file named [artifacts]. *)
Definition sample_fs : gmap path (node sample_bytes) :=
  <[ ["config"] := Dir ]>
  (<[ ["config"; "config.yaml"] := File (SText "a: 1") ]>
  (<[ ["params.yaml"] := File (SText "") ]>
  (<[ ["schema.yaml"] := File (SText "hello") ]>
  (<[ ["artifacts"] := File (SZeros 1024) ]> ∅)))).

Definition sample_world : world sample_bytes := World sample_fs ∅ [].

Definition config_yaml : path := ["config"; "config.yaml"].
Definition params_yaml : path := ["params.yaml"].
Definition metrics_json : path := ["config"; "metrics.json"].
Definition sample_dirs : list pyval :=
  [PPath ["artifacts_root"; "data"]; PStr "models"; PPath ["config"]].
Definition sample_metrics : ConfigBox :=
  [(KStr "a", PInt 1); (KStr "b", PList [PInt 1; PInt 2; PInt 3])].

(** The sample project with one more file, of [n] bytes. *)
Definition with_blob (n : N) : world sample_bytes :=
  World (<[ ["model.joblib"] := File (SZeros n) ]> sample_fs) ∅ [].

(** [list_of_files], lines 13 to 36, each entry as the parts of
    [Path(filepath)]; the project name is ["WineQuality"]. *)
Definition list_of_files : list path :=
  [ [];
    ["src"; "WineQuality"; "__init__.py"];
    ["src"; "WineQuality"; "components"; "__init__.py"];
    ["src"; "WineQuality"; "utils"; "__init__.py"];
    ["src"; "WineQuality"; "utils"; "common.py"];
    ["src"; "WineQuality"; "config"; "__init__.py"];
    ["src"; "WineQuality"; "config"; "configuration.py"];
    ["src"; "WineQuality"; "pipeline"; "__init__.py"];
    ["src"; "WineQuality"; "entity"; "__init__.py"];
    ["src"; "WineQuality"; "entity"; "config_entity.py"];
    ["src"; "WineQuality"; "constants"; "__init__.py"];
    ["config"; "config.yaml"];
    ["params.yaml"];
    ["schema.yaml"];
    ["main.py"];
    ["app.py"];
    ["Dockerfile"];
    ["requirements.txt"];
    ["setup.py"];
    ["research"; "trials.ipynb"];
    ["templates"; "index.html"];
    ["test.py"] ].

(** The sample project with a JSON artifact, and with a binary one. *)
Definition data_json : path := ["data.json"].
Definition with_json (j : json) : world sample_bytes :=
  World (<[ data_json := File (SJson j) ]> sample_fs) ∅ [].
Definition with_pickle (v : pyval) : world sample_bytes :=
  World (<[ ["model.joblib"] := File (SPickle v) ]> sample_fs) ∅ [].

(** * Properties *)

Section Facts.
Context {bytes : Type} {L : Libs bytes}.
Implicit Types (w : world bytes) (p : path) (e : exn) (c : ConfigBox).

Lemma add_trace_add_trace w evs1 evs2 :
  add_trace (add_trace w evs1) evs2 = add_trace w (evs1 ++ evs2).
Proof. unfold add_trace; simpl. by rewrite <- app_assoc. Qed.

Lemma add_trace_nil w : add_trace w [] = w.
Proof. destruct w; unfold add_trace; simpl. by rewrite app_nil_r. Qed.

(** The decorator lets a [Path] through, and a [ConfigBox] back. *)
Lemma read_yaml_path p w : read_yaml (PPath p) w = read_yaml_body p w.
Proof.
  unfold read_yaml, ensure_annotations, bind, lift, ret; simpl.
  by destruct (read_yaml_body p w) as [[e|c] w'].
Qed.

Lemma read_yaml_body_hit p w c :
  yaml_cache w !! p = Some c →
  read_yaml_body p w = (inr c, add_trace w [EvLog INFO (msg_cached p)]).
Proof. intros H. unfold read_yaml_body. by rewrite H. Qed.

Lemma read_yaml_body_miss p w :
  yaml_cache w !! p = None →
  read_yaml_body p w =
    match read_file (fs w) p with
    | inl e => handler p e (add_trace w [EvOpen p Rd])
    | inr b =>
        match yaml_safe_load b with
        | inl e => handler p e (add_trace w [EvOpen p Rd])
        | inr content =>
            match Box_init content with
            | inl e =>
                handler p e (add_trace w [EvOpen p Rd; EvLog INFO (msg_loaded p)])
            | inr c =>
                (inr c,
                 World (fs w) (<[p := c]> (yaml_cache w))
                   (trace w ++ [EvOpen p Rd; EvLog INFO (msg_loaded p); EvCache p]))
            end
        end
    end.
Proof.
  intros H. unfold read_yaml_body. rewrite H.
  unfold try_except, open_read, bind, lift, emit, logger_info, cache_store,
    ret, emit; simpl.
  destruct (read_file (fs w) p) as [e|b]; simpl.
  { by destruct e. }
  destruct (yaml_safe_load b) as [e|content]; simpl.
  { by destruct e. }
  destruct (Box_init content) as [e|c]; simpl.
  { destruct e; unfold handler, raise, logger_error, bind, emit;
      by rewrite ?add_trace_add_trace. }
  unfold add_trace; simpl. by rewrite <- !app_assoc.
Qed.

(** C1: when [p] holds a valid configuration file (it opens, parses to
    [content], and [ConfigBox(content)] is [c]), a first [read_yaml(p)]
    returns a document [c1] and leaves it in the cache under [p].  When [p]
    was not cached, [c1] is the document [c] built from the file, after one
    open, the success record and the cache assignment; when it was, [c1] is
    the cached document.  A second call returns the same [c1] from the
    cache: its only effect is one informational cache-hit record; no file
    is opened, and the file system and the cache are as the first call left
    them. *)
Theorem read_yaml_cache_idempotent p w b content c :
  read_file (fs w) p = inr b →
  yaml_safe_load b = inr content →
  Box_init content = inr c →
  ∃ c1 w1,
    read_yaml (PPath p) w = (inr c1, w1) ∧
    yaml_cache w1 !! p = Some c1 ∧
    (yaml_cache w !! p = None →
       c1 = c ∧
       w1 = World (fs w) (<[p := c]> (yaml_cache w))
              (trace w ++ [EvOpen p Rd; EvLog INFO (msg_loaded p); EvCache p])) ∧
    (∀ c0, yaml_cache w !! p = Some c0 →
       c1 = c0 ∧ w1 = add_trace w [EvLog INFO (msg_cached p)]) ∧
    read_yaml (PPath p) w1 =
      (inr c1,
       add_trace w1 [EvLog INFO ("yaml file: " +:+ path_str p +:+ " retrieved from cache")]).
Proof.
  intros Hf Hy Hb. rewrite read_yaml_path.
  destruct (yaml_cache w !! p) as [c0|] eqn:Hc.
  - exists c0, (add_trace w [EvLog INFO (msg_cached p)]).
    split; [by apply read_yaml_body_hit|].
    split; [done|]. split; [done|]. split; [by intros c' [= <-]|].
    rewrite read_yaml_path. by apply read_yaml_body_hit.
  - rewrite (read_yaml_body_miss p w Hc), Hf, Hy, Hb.
    eexists _, _. split; [reflexivity|]. simpl.
    split; [apply lookup_insert_eq|]. split; [done|]. split; [done|].
    rewrite read_yaml_path. apply read_yaml_body_hit. simpl.
    apply lookup_insert_eq.
Qed.

(** C2, as amended: on a file that is not in the cache, absent content
    ([yaml.safe_load] returns [None], as for an empty file) makes
    [read_yaml] raise [ValueError("yaml file is empty")], with no error
    record and the cache left alone; empty content that is a mapping, [{}],
    is not rejected: the call returns an empty [ConfigBox] and stores it in
    the cache. *)
Theorem read_yaml_empty_document p w b :
  yaml_cache w !! p = None →
  read_file (fs w) p = inr b →
  (yaml_safe_load b = inr PNone →
   read_yaml (PPath p) w =
     (inl (ValueError "yaml file is empty"),
      add_trace w [EvOpen p Rd; EvLog INFO (msg_loaded p)])) ∧
  (yaml_safe_load b = inr (PDict []) →
   read_yaml (PPath p) w =
     (inr [],
      World (fs w) (<[p := []]> (yaml_cache w))
        (trace w ++ [EvOpen p Rd; EvLog INFO (msg_loaded p); EvCache p]))).
Proof.
  intros Hc Hf.
  split; intros Hy;
    by rewrite read_yaml_path, (read_yaml_body_miss p w Hc), Hf, Hy.
Qed.


(** The decorator refuses every argument that is not a [Path], before the
    body runs. *)
Lemma read_yaml_mismatch a w :
  mismatch a TPath →
  read_yaml a w = (inl (EnsureError (msg_ensure "path_to_yaml")), w).
Proof. unfold mismatch. by destruct a. Qed.

Lemma path_or_mismatch a : (∃ p, a = PPath p) ∨ mismatch a TPath.
Proof. destruct a; eauto; by right. Qed.

(** An exception raised inside the [try] reaches the [except] clauses,
    after the open and, when the parse went through, the success record. *)
Lemma read_yaml_raises p w e :
  yaml_cache w !! p = None →
  raised_in_try w p e →
  ∃ pre,
    read_yaml (PPath p) w = handler p e (add_trace w pre) ∧
    (pre = [EvOpen p Rd] ∨ pre = [EvOpen p Rd; EvLog INFO (msg_loaded p)]).
Proof.
  intros Hc Hr. rewrite read_yaml_path, (read_yaml_body_miss p w Hc).
  destruct Hr as [Hf|(b & Hf & [Hy|(content & Hy & Hb)])].
  - rewrite Hf. eauto.
  - rewrite Hf, Hy. eauto.
  - rewrite Hf, Hy, Hb. eauto.
Qed.

(** C7, as amended: in a [read_yaml] call on a [Path] that is not cached,
    an exception [e] raised by the open, by the parse or by [ConfigBox]
    that is not a [BoxValueError] is logged in one error record made of the
    path and of [str(e)], as the last effect, and then the call raises that
    very [e]: the failure is neither wrapped nor swallowed, and the file was
    opened once.  Two kinds of failure are raised without an error record: a
    [BoxValueError], which is replaced by
    [ValueError("yaml file is empty")], and the [EnsureError] of the
    decorator on an argument that is not a [Path], raised before the body
    runs.  Every failing call is of one of these three kinds. *)
Theorem read_yaml_failure_logged a w :
  (∀ p e, a = PPath p → yaml_cache w !! p = None → raised_in_try w p e →
     (∀ msg, e ≠ BoxValueError msg) →
     ∃ pre,
       read_yaml a w =
         (inl e,
          add_trace w
            (pre ++ [EvLog ERROR ("Error reading YAML file at " +:+ path_str p
                                  +:+ ": " +:+ str_exn e)])) ∧
       (pre = [EvOpen p Rd] ∨ pre = [EvOpen p Rd; EvLog INFO (msg_loaded p)])) ∧
  (∀ p msg, a = PPath p → yaml_cache w !! p = None →
     raised_in_try w p (BoxValueError msg) →
     ∃ pre,
       read_yaml a w = (inl (ValueError "yaml file is empty"), add_trace w pre) ∧
       (pre = [EvOpen p Rd] ∨ pre = [EvOpen p Rd; EvLog INFO (msg_loaded p)])) ∧
  (mismatch a TPath →
     read_yaml a w = (inl (EnsureError (msg_ensure "path_to_yaml")), w)) ∧
  (∀ e w', read_yaml a w = (inl e, w') →
     mismatch a TPath ∨
     ∃ p e0, a = PPath p ∧ yaml_cache w !! p = None ∧ raised_in_try w p e0 ∧
       ((∃ msg, e0 = BoxValueError msg) ∨ e = e0)).
Proof.
  split; [|split; [|split]].
  - intros p e -> Hc Hr Hne.
    destruct (read_yaml_raises p w e Hc Hr) as (pre & -> & Hpre).
    exists pre. split; [|done].
    rewrite <- add_trace_add_trace.
    destruct e; try reflexivity. by destruct (Hne msg).
  - intros p msg -> Hc Hr.
    destruct (read_yaml_raises p w _ Hc Hr) as (pre & -> & Hpre).
    by exists pre.
  - apply read_yaml_mismatch.
  - intros e w' Hr.
    destruct (path_or_mismatch a) as [[p ->]|Hm]; [|by left].
    right. rewrite read_yaml_path in Hr.
    destruct (yaml_cache w !! p) as [c0|] eqn:Hc.
    { by rewrite (read_yaml_body_hit p w c0 Hc) in Hr. }
    rewrite (read_yaml_body_miss p w Hc) in Hr. unfold raised_in_try.
    assert (Hh : ∀ e0 w0, handler p e0 w0 = (inl e, w') →
              (∃ msg, e0 = BoxValueError msg) ∨ e = e0).
    { intros e0 w0 Hh. destruct e0; unfold handler, raise in Hh;
        inversion Hh; subst; eauto. }
    destruct (read_file (fs w) p) as [e0|b] eqn:Hf.
    { exists p, e0. apply Hh in Hr. eauto 6. }
    destruct (yaml_safe_load b) as [e0|content] eqn:Hy.
    { exists p, e0. apply Hh in Hr. split; [done|]. split; [done|].
      split; [right; eauto|done]. }
    destruct (Box_init content) as [e0|c] eqn:Hb; [|done].
    exists p, e0. apply Hh in Hr. split; [done|]. split; [done|].
    split; [right; eauto 6|done].
Qed.

(** C9: a [read_yaml] call leaves the cache as it was or adds one entry,
    under the path it was called with and only when it returns a document;
    a call that fails leaves the cache unchanged, and a later call for the
    same path, whatever the file system then holds, opens the file again. *)
Theorem read_yaml_cache_writes a w r w' :
  read_yaml a w = (r, w') →
  (yaml_cache w' = yaml_cache w ∨
   ∃ p c, a = PPath p ∧ yaml_cache w !! p = None ∧ r = inr c ∧
          yaml_cache w' = <[p := c]> (yaml_cache w)) ∧
  (∀ e, r = inl e →
     yaml_cache w' = yaml_cache w ∧
     ∀ p w2, a = PPath p → yaml_cache w2 = yaml_cache w' →
       ∃ evs, trace (read_yaml a w2).2 = (trace w2 ++ EvOpen p Rd :: evs)%list).
Proof.
  intros Hr.
  destruct a as [| | | |p| | | | |];
    try (inversion Hr; subst; split; [by left|];
         intros e _; split; [done|]; intros; discriminate).
  rewrite read_yaml_path in Hr.
  destruct (yaml_cache w !! p) as [c0|] eqn:Hc.
  { rewrite (read_yaml_body_hit p w c0 Hc) in Hr. inversion Hr; subst.
    split; [by left|]. intros e He; discriminate. }
  assert (Hopen : ∀ w2, yaml_cache w2 !! p = None →
            ∃ evs, trace (read_yaml (PPath p) w2).2 = (trace w2 ++ EvOpen p Rd :: evs)%list).
  { intros w2 H2. rewrite read_yaml_path, (read_yaml_body_miss p w2 H2).
    assert (Hh : ∀ e0 evs, ∃ evs',
              trace (handler p e0 (add_trace w2 (EvOpen p Rd :: evs))).2
              = (trace w2 ++ EvOpen p Rd :: evs')%list).
    { intros e0 evs. destruct e0; simpl; rewrite <- ?app_assoc; simpl; eauto. }
    destruct (read_file (fs w2) p) as [e0|b]; [apply Hh|].
    destruct (yaml_safe_load b) as [e0|content]; [apply Hh|].
    destruct (Box_init content) as [e0|c]; [apply Hh|]. simpl. eauto. }
  assert (Hh : ∀ e0 w0 e, handler p e0 w0 = (inl e, w') →
            yaml_cache w' = yaml_cache w0).
  { intros e0 w0 e Hh. destruct e0; unfold handler, raise in Hh;
      by inversion Hh. }
  assert (Hfail : ∀ e, yaml_cache w' = yaml_cache w →
            yaml_cache w' = yaml_cache w ∧
            ∀ p0 w2, PPath p = PPath p0 → yaml_cache w2 = yaml_cache w' →
              ∃ evs, trace (read_yaml (PPath p) w2).2 = (trace w2 ++ EvOpen p0 Rd :: evs)%list).
  { intros _ Heq. split; [done|]. intros p0 w2 [= <-] H2.
    apply Hopen. by rewrite H2, Heq. }
  rewrite (read_yaml_body_miss p w Hc) in Hr.
  destruct (read_file (fs w) p) as [e0|b].
  { destruct r as [e|c]; [|by destruct e0]. apply Hh in Hr. simpl in Hr.
    split; [by left|]. intros e' _. by apply (Hfail e'). }
  destruct (yaml_safe_load b) as [e0|content].
  { destruct r as [e|c]; [|by destruct e0]. apply Hh in Hr. simpl in Hr.
    split; [by left|]. intros e' _. by apply (Hfail e'). }
  destruct (Box_init content) as [e0|c].
  { destruct r as [e|c]; [|by destruct e0]. apply Hh in Hr. simpl in Hr.
    split; [by left|]. intros e' _. by apply (Hfail e'). }
  inversion Hr; subst; simpl. split; [|intros e; discriminate].
  right. by exists p, c.
Qed.

(** *** Directories *)

Lemma grows_refl w : grows w w.
Proof. split; auto. Qed.

Lemma grows_trans w1 w2 w3 : grows w1 w2 → grows w2 w3 → grows w1 w3.
Proof.
  intros [Hc1 H1] [Hc2 H2]. split; [congruence|]. intros q.
  destruct (H1 q) as [E1|[E1 E1']], (H2 q) as [E2|[E2 E2']];
    [left; congruence|right; split; congruence..|congruence].
Qed.

Lemma grows_add_trace w evs : grows w (add_trace w evs).
Proof. split; auto. Qed.

Lemma grows_keeps w w' q n :
  grows w w' → node_at (fs w) q = Some n → node_at (fs w') q = Some n.
Proof. intros [_ H] Hq. destruct (H q) as [E|[E _]]; congruence. Qed.

Lemma node_at_insert (f : gmap path (node bytes)) p n q :
  p ≠ [] →
  node_at (<[p := n]> f) q = if decide (p = q) then Some n else node_at f q.
Proof.
  intros Hp. destruct q as [|s q]; simpl.
  - by case_decide.
  - rewrite lookup_insert. by repeat case_decide.
Qed.

Lemma mkdir_exist_ok_spec p w r w' :
  mkdir_exist_ok p w = (r, w') →
  grows w w' ∧ (r = inr tt → node_at (fs w') p = Some Dir).
Proof.
  unfold mkdir_exist_ok, try_except, mkdir, bind, emit, path_isdir, set_node,
    ret, raise, add_trace; simpl.
  destruct (node_at (fs w) p) as [n|] eqn:Hp.
  { destruct n; simpl; rewrite Hp; simpl; intros [= <- <-];
      (split; [apply grows_add_trace|done]). }
  destruct (node_at (fs w) (parent p)) as [[|b]|] eqn:Hpar; simpl; rewrite ?Hp.
  - destruct (denied p); simpl; rewrite ?Hp.
    { intros [= <- <-]. split; [apply grows_add_trace|done]. }
    assert (p ≠ []) by (by intros ->).
    intros [= <- <-]. simpl. split.
    + split; [done|]. intros q. simpl. rewrite node_at_insert by done.
      case_decide; subst; auto.
    + intros _. rewrite node_at_insert by done. by case_decide.
  - intros [= <- <-]. split; [apply grows_add_trace|done].
  - intros [= <- <-]. split; [apply grows_add_trace|done].
Qed.

Lemma makedirs_rev_spec rp : ∀ w r w',
  makedirs_rev rp w = (r, w') →
  grows w w' ∧ (r = inr tt → node_at (fs w') (rev rp) = Some Dir).
Proof.
  induction rp as [|s rhead IH]; intros w r w'; simpl.
  { intros H. by apply mkdir_exist_ok_spec in H. }
  unfold bind at 1 2. unfold path_exists at 1. simpl.
  destruct (bool_decide (is_Some (node_at (fs w) (rev rhead)))).
  { simpl. intros H. by apply mkdir_exist_ok_spec in H. }
  unfold try_except.
  destruct (makedirs_rev rhead w) as [r1 w1] eqn:H1.
  apply IH in H1 as [G1 _].
  assert (Hlast : ∀ r w', mkdir_exist_ok (rev rhead ++ [s]) w1 = (r, w') →
            grows w w' ∧ (r = inr tt → node_at (fs w') (rev rhead ++ [s]) = Some Dir)).
  { intros r0 w0 H. apply mkdir_exist_ok_spec in H as [G2 H].
    split; [by eapply grows_trans|done]. }
  destruct r1 as [e|[]]; [|apply Hlast].
  destruct e as [| | | |[] ?| | |]; simpl;
    try (intros [= <- <-]; split; [done|discriminate]).
  apply Hlast.
Qed.

Lemma makedirs_spec p w r w' :
  makedirs p w = (r, w') →
  grows w w' ∧ (r = inr tt → node_at (fs w') p = Some Dir).
Proof.
  unfold makedirs. intros H. apply makedirs_rev_spec in H.
  by rewrite rev_involutive in H.
Qed.

Lemma create_directories_body_spec l verbose : ∀ w w1,
  create_directories_body l verbose w = (inr tt, w1) →
  grows w w1 ∧
  ∀ v, v ∈ l →
    ∃ p, fspath v = inr p ∧ is_Some (node_at (fs w1) p) ∧
         ((∀ b, node_at (fs w) p ≠ Some (File b)) → node_at (fs w1) p = Some Dir).
Proof.
  induction l as [|v l IH]; intros w w1; simpl.
  { intros [= <-]. split; [apply grows_refl|]. intros v Hv. by apply elem_of_nil in Hv. }
  unfold bind at 1. unfold lift at 1.
  destruct (fspath v) as [e|p] eqn:Hv; [done|].
  unfold bind at 1. unfold path_exists at 1. simpl.
  unfold bind at 1.
  destruct (node_at (fs w) p) as [n|] eqn:Hp; simpl.
  - (* the path exists: nothing is created *)
    assert (∃ evs, when verbose
              (logger_info ("Directory already exists at: " +:+ pystr v)) w
              = (inr tt, add_trace w evs)) as [evs ->].
    { destruct verbose; simpl; eauto. exists []. by rewrite add_trace_nil. }
    simpl. intros H. apply IH in H as [G H]. split.
    { eapply grows_trans; [apply grows_add_trace|done]. }
    intros v' [->|Hin]%elem_of_cons; [|by apply H].
    exists p. split; [done|].
    assert (Hk : node_at (fs w1) p = Some n).
    { eapply grows_keeps; [exact G|done]. }
    rewrite Hk. split; [eauto|]. intros Hnf. destruct n; [done|]. by destruct (Hnf b).
  - (* the path is absent: [os.makedirs] *)
    unfold bind at 1.
    destruct (makedirs p w) as [r0 w0] eqn:Hm.
    apply makedirs_spec in Hm as [G0 Hd].
    destruct r0 as [e|[]]; [done|]. specialize (Hd eq_refl).
    assert (∃ evs, when verbose
              (logger_info ("Created directory at: " +:+ pystr v)) w0
              = (inr tt, add_trace w0 evs)) as [evs ->].
    { destruct verbose; simpl; eauto. exists []. by rewrite add_trace_nil. }
    simpl. intros H. apply IH in H as [G H].
    assert (G' : grows w (add_trace w0 evs)).
    { eapply grows_trans; [exact G0|apply grows_add_trace]. }
    split; [by eapply grows_trans|].
    intros v' [->|Hin]%elem_of_cons.
    + exists p. split; [done|].
      assert (Hk : node_at (fs w1) p = Some Dir).
      { eapply grows_keeps; [exact G|done]. }
      rewrite Hk. eauto.
    + destruct (H v' Hin) as (p' & Hf & Hs & Hdir).
      exists p'. split; [done|]. split; [done|]. intros Hnf. apply Hdir.
      intros b Hb. destruct G' as [_ G']. destruct (G' p') as [E|[E1 E2]].
      * apply (Hnf b). by rewrite <- E.
      * simpl in *. congruence.
Qed.

Lemma create_directories_body_existing l verbose : ∀ w,
  (∀ v, v ∈ l → ∃ p, fspath v = inr p ∧ is_Some (node_at (fs w) p)) →
  create_directories_body l verbose w
  = (inr tt, add_trace w (exists_records l verbose)).
Proof.
  induction l as [|v l IH]; intros w H; simpl.
  { unfold ret, exists_records. by destruct verbose; simpl; rewrite add_trace_nil. }
  destruct (H v) as (p & Hv & Hs); [by left|].
  unfold bind at 1. unfold lift at 1. rewrite Hv.
  unfold bind at 1. unfold path_exists at 1. simpl.
  rewrite bool_decide_true by done. simpl.
  unfold bind at 1.
  destruct verbose; simpl.
  - rewrite IH; [|intros v' Hv'; apply H; by right].
    by rewrite add_trace_add_trace.
  - rewrite IH; [|intros v' Hv'; apply H; by right]. done.
Qed.

Lemma create_directories_list l verbose w :
  create_directories (PList l) verbose w = create_directories_body l verbose w.
Proof.
  unfold create_directories, ensure_annotations, bind, lift, ret; simpl.
  by destruct (create_directories_body l verbose w) as [[e|[]] w'].
Qed.

(** C5, as amended: when [create_directories] returns normally, every
    listed path exists afterwards, and is a directory unless a file was
    already there; a second call with the same list then changes neither
    the file system nor the cache, makes no [mkdir] call and raises nothing:
    all it does is log, when [verbose], that each directory exists. *)
Theorem create_directories_idempotent l verbose w w1 :
  create_directories (PList l) verbose w = (inr tt, w1) →
  (∀ v, v ∈ l →
     ∃ p, fspath v = inr p ∧ is_Some (node_at (fs w1) p) ∧
          ((∀ b, node_at (fs w) p ≠ Some (File b)) →
           node_at (fs w1) p = Some Dir)) ∧
  create_directories (PList l) verbose w1
  = (inr tt, add_trace w1 (exists_records l verbose)).
Proof.
  rewrite !create_directories_list. intros H.
  apply create_directories_body_spec in H as [_ H]. split; [done|].
  apply create_directories_body_existing.
  intros v Hv. destruct (H v Hv) as (p & ? & ? & _). eauto.
Qed.

(** *** File sizes *)




(** *** JSON artifacts *)

Lemma pyval_nested_ind (P : pyval → Prop) :
  P PNone → (∀ b, P (PBool b)) → (∀ n, P (PInt n)) → (∀ s, P (PStr s)) →
  (∀ p, P (PPath p)) →
  (∀ l, Forall P l → P (PList l)) →
  (∀ l, Forall P l → P (PTuple l)) →
  (∀ d, Forall (λ kv, P kv.2) d → P (PDict d)) →
  (∀ d, Forall (λ kv, P kv.2) d → P (PBox d)) →
  (∀ x, P (PFloat x)) →
  ∀ v, P v.
Proof.
  intros HN HB HI HS HP HL HT HD HX HF.
  fix IH 1. intros [|b|n|s|p|l|l|d|d|x].
  - exact HN.
  - apply HB.
  - apply HI.
  - apply HS.
  - apply HP.
  - apply HL. induction l as [|x l IHl]; constructor; [apply IH|exact IHl].
  - apply HT. induction l as [|x l IHl]; constructor; [apply IH|exact IHl].
  - apply HD. induction d as [|[k x] d IHd]; constructor; [apply IH|exact IHd].
  - apply HX. induction d as [|[k x] d IHd]; constructor; [apply IH|exact IHd].
  - apply HF.
Qed.

Lemma dict_set_fresh (d : ConfigBox) k v :
  k ∉ d.*1 → dict_set d k v = (d ++ [(k, v)])%list.
Proof.
  induction d as [|[k' v'] d IH]; simpl; [done|].
  intros Hk. apply not_elem_of_cons in Hk as [Hne Hk].
  case_decide; [congruence|]. by rewrite IH.
Qed.

Lemma fold_dict_set_nodup (l : ConfigBox) : ∀ acc : ConfigBox,
  NoDup (acc.*1 ++ l.*1) →
  fold_left (λ b kv, dict_set b kv.1 kv.2) l acc = (acc ++ l)%list.
Proof.
  induction l as [|[k v] l IH]; intros acc Hnd; simpl.
  { by rewrite app_nil_r. }
  simpl in Hnd. rewrite dict_set_fresh.
  - rewrite IH.
    + by rewrite <- app_assoc.
    + rewrite fmap_app. simpl. by rewrite <- app_assoc.
  - apply NoDup_app in Hnd as (_ & Hnd & _). intros Hk.
    apply (Hnd k Hk). by left.
Qed.

(** The constructor of a [ConfigBox] copies a dictionary as it is. *)
Lemma Box_init_dict (d : ConfigBox) :
  NoDup d.*1 → Box_init (PDict d) = inr d.
Proof. intros Hnd. simpl. by rewrite fold_dict_set_nodup. Qed.

(** What [json.dump] writes for an object without keys or sequences to
    coerce,
    [json.load] reads back as that object. *)
Lemma json_plain_round_trip v :
  json_plain v = true → ∃ j, json_of_py v = inr j ∧ py_of_json j = v.
Proof.
  induction v as [|b|n|s|p|l IH|l IH|d IH|d IH|x] using pyval_nested_ind;
    simpl; try done; try (intros _; eexists; by split).
  - (* lists *)
    intros Hl.
    assert (∃ js, seq_map json_of_py l = inr js ∧ map py_of_json js = l)
      as (js & -> & Hjs).
    { induction l as [|x l IHl]; simpl in *; [by exists []|].
      apply andb_prop in Hl as [Hx Hl]. apply Forall_cons in IH as [IHx IH].
      destruct (IHx Hx) as (j & -> & Hj).
      destruct (IHl IH Hl) as (js & -> & Hjs).
      exists (j :: js). simpl. by rewrite Hj, Hjs. }
    exists (JArr js). simpl. by rewrite Hjs.
  - (* dictionaries *)
    intros [Hd Hnd%bool_decide_eq_true]%andb_prop.
    assert (∃ js,
              seq_map (λ kv, match kv with
                             | (k, x) =>
                                 match json_of_py x with
                                 | inl e => inl e
                                 | inr j => inr (key_str k, j)
                                 end
                             end) d = inr js ∧
              map (λ kv, (KStr kv.1, py_of_json kv.2)) js = d)
      as (js & -> & Hjs).
    { clear Hnd. induction d as [|[k x] d IHd]; simpl in *; [by exists []|].
      apply andb_prop in Hd as [Hx Hd]. apply Forall_cons in IH as [IHx IH].
      destruct k as [s|]; [|done]. simpl in IHx.
      destruct (IHx Hx) as (j & -> & Hj).
      destruct (IHd IH Hd) as (js & -> & Hjs).
      exists ((s, j) :: js). simpl. by rewrite Hj, Hjs. }
    exists (JObj js). split; [done|]. simpl. f_equal.
    clear Hd IH. subst d.
    transitivity
      (fold_left (λ b kv, dict_set b kv.1 kv.2)
         (map (λ kv, (KStr kv.1, py_of_json kv.2)) js) []).
    + clear Hnd. generalize (@nil (pykey * pyval)).
      induction js as [|[k x] js IHjs]; intros acc; simpl; [done|].
      apply IHjs.
    + by rewrite fold_dict_set_nodup.
Qed.




Lemma load_json_path p w : load_json (PPath p) w = load_json_body p w.
Proof.
  unfold load_json, ensure_annotations, bind, lift, ret; simpl.
  by destruct (load_json_body p w) as [[e|c] w'].
Qed.


(** *** Error records *)

Lemma error_lines_app t1 t2 :
  error_lines (t1 ++ t2) = error_lines t1 + error_lines t2.
Proof. unfold error_lines. by rewrite filter_app, length_app. Qed.

















(** *** Annotations *)


(** *** What the directory functions leave alone *)

Lemma mkdirs_only_refl w : mkdirs_only w w.
Proof. split; auto. Qed.

Lemma mkdirs_only_add_trace w evs : mkdirs_only w (add_trace w evs).
Proof. split; auto. Qed.

Lemma mkdirs_only_trans w1 w2 w3 :
  mkdirs_only w1 w2 → mkdirs_only w2 w3 → mkdirs_only w1 w3.
Proof.
  intros [Hc1 H1] [Hc2 H2]. split; [congruence|]. intros q.
  destruct (H2 q) as [E2|(E2 & E2' & E2'')].
  - destruct (H1 q) as [E1|(E1 & E1' & E1'')]; [left; congruence|].
    right. split; [done|]. split; [congruence|].
    destruct (H2 (parent q)) as [E|(E & _)]; congruence.
  - destruct (H1 q) as [E1|(E1 & E1' & E1'')]; [|congruence].
    right. split; [congruence|]. done.
Qed.

Lemma mkdirs_only_grows w w' : mkdirs_only w w' → grows w w'.
Proof.
  intros [Hc H]. split; [done|]. intros q.
  destruct (H q) as [E|(E & E' & _)]; auto.
Qed.

Lemma mkdir_exist_ok_only p w r w' :
  mkdir_exist_ok p w = (r, w') → mkdirs_only w w'.
Proof.
  unfold mkdir_exist_ok, try_except, mkdir, bind, emit, path_isdir, set_node,
    ret, raise, add_trace; simpl.
  destruct (node_at (fs w) p) as [n|] eqn:Hp.
  { destruct n; simpl; rewrite Hp; simpl; intros [= <- <-];
      apply mkdirs_only_add_trace. }
  destruct (node_at (fs w) (parent p)) as [[|b]|] eqn:Hpar; simpl; rewrite ?Hp;
    try (intros [= <- <-]; apply mkdirs_only_add_trace).
  destruct (denied p); simpl; rewrite ?Hp.
  { intros [= <- <-]. apply mkdirs_only_add_trace. }
  assert (p ≠ []) by (by intros ->).
  intros [= <- <-]. split; [done|]. intros q. simpl.
  rewrite node_at_insert by done. case_decide; subst; [|by left].
  right. split; [done|]. split; [done|].
  rewrite node_at_insert by done. case_decide; [|done].
  congruence.
Qed.

Lemma makedirs_rev_only rp : ∀ w r w',
  makedirs_rev rp w = (r, w') → mkdirs_only w w'.
Proof.
  induction rp as [|s rhead IH]; intros w r w'; simpl.
  { apply mkdir_exist_ok_only. }
  unfold bind at 1 2. unfold path_exists at 1. simpl.
  destruct (bool_decide (is_Some (node_at (fs w) (rev rhead)))).
  { simpl. apply mkdir_exist_ok_only. }
  unfold try_except.
  destruct (makedirs_rev rhead w) as [r1 w1] eqn:H1.
  apply IH in H1.
  assert (Hlast : ∀ r w', mkdir_exist_ok (rev rhead ++ [s]) w1 = (r, w') →
            mkdirs_only w w').
  { intros r0 w0 H. apply mkdir_exist_ok_only in H. by eapply mkdirs_only_trans. }
  destruct r1 as [e|[]]; [|apply Hlast].
  destruct e as [| | | |[] ?| | |]; simpl;
    try (by intros [= <- <-]).
  apply Hlast.
Qed.

Lemma makedirs_only p w r w' : makedirs p w = (r, w') → mkdirs_only w w'.
Proof. apply makedirs_rev_only. Qed.

Lemma when_log_trace verbose msg w :
  ∃ evs, when verbose (logger_info msg) w = (inr tt, add_trace w evs).
Proof.
  destruct verbose; simpl; [by eexists|]. exists []. by rewrite add_trace_nil.
Qed.

Lemma create_directories_body_only l verbose : ∀ w r w',
  create_directories_body l verbose w = (r, w') → mkdirs_only w w'.
Proof.
  induction l as [|v l IH]; intros w r w'; simpl.
  { intros [= <- <-]. apply mkdirs_only_refl. }
  unfold bind at 1. unfold lift at 1.
  destruct (fspath v) as [e|p]; [intros [= <- <-]; apply mkdirs_only_refl|].
  unfold bind at 1. unfold path_exists at 1. simpl.
  unfold bind at 1.
  destruct (bool_decide (is_Some (node_at (fs w) p))); simpl.
  - destruct (when_log_trace verbose ("Directory already exists at: " +:+ pystr v) w)
      as [evs ->].
    intros H. apply IH in H.
    eapply mkdirs_only_trans; [apply mkdirs_only_add_trace|done].
  - unfold bind at 1.
    destruct (makedirs p w) as [r0 w0] eqn:Hm. apply makedirs_only in Hm.
    destruct r0 as [e|[]]; [by intros [= <- <-]|].
    destruct (when_log_trace verbose ("Created directory at: " +:+ pystr v) w0)
      as [evs ->].
    intros H. apply IH in H.
    eapply mkdirs_only_trans; [exact Hm|].
    eapply mkdirs_only_trans; [apply mkdirs_only_add_trace|done].
Qed.

Lemma wf_fs_mkdirs_only w w' :
  wf_fs (fs w) → mkdirs_only w w' → wf_fs (fs w').
Proof.
  intros Hwf [_ H] q n Hq.
  destruct (H q) as [E|(_ & _ & E)]; [|done].
  rewrite E in Hq. apply Hwf in Hq.
  destruct (H (parent q)) as [E'|(E' & _)]; congruence.
Qed.

Lemma wf_fs_prefixes (f : gmap path (node bytes)) p :
  wf_fs f → is_Some (node_at f p) →
  ∀ k, k < length p → node_at f (take k p) = Some Dir.
Proof.
  intros Hwf. induction p as [|s p IH] using rev_ind; intros [n Hn] k Hk.
  { simpl in Hk. lia. }
  rewrite length_app in Hk. simpl in Hk.
  assert (Hp : node_at f p = Some Dir).
  { apply Hwf in Hn. unfold parent in Hn. by rewrite removelast_last in Hn. }
  rewrite take_app_le by lia.
  destruct (decide (k = length p)) as [->|Hne].
  - by rewrite firstn_all.
  - apply IH; [eauto|lia].
Qed.

Lemma create_directories_mkdirs_only a verbose w r w' :
  create_directories a verbose w = (r, w') → mkdirs_only w w'.
Proof.
  destruct a as [| | | | |l| | | |];
    try (intros [= <- <-]; apply mkdirs_only_refl).
  unfold create_directories, ensure_annotations, bind, lift, ret; simpl.
  destruct (create_directories_body l verbose w) as [[e|[]] w1] eqn:H;
    intros [= <- <-]; by apply create_directories_body_only in H.
Qed.

(** X15: Whatever the outcome, [create_directories] only adds directories:
    every path that held something holds the same afterwards, every new
    entry is a directory inside a directory, and the cache is untouched. *)
Theorem create_directories_only_adds a verbose w r w' :
  create_directories a verbose w = (r, w') → mkdirs_only w w'.
Proof. apply create_directories_mkdirs_only. Qed.

(** X16: On a file system where every entry lies in a directory,
    [create_directories] keeps it so whatever the outcome, and after a call
    that returns normally every segment above a listed path is a
    directory. *)
Theorem create_directories_parents l verbose w r w' :
  wf_fs (fs w) →
  create_directories (PList l) verbose w = (r, w') →
  wf_fs (fs w') ∧
  (r = inr tt →
   ∀ v p k, v ∈ l → fspath v = inr p → k < length p →
     node_at (fs w') (take k p) = Some Dir).
Proof.
  intros Hwf H.
  assert (Hwf' : wf_fs (fs w')).
  { apply (wf_fs_mkdirs_only w w' Hwf).
    by apply create_directories_mkdirs_only in H. }
  split; [done|]. intros -> v p k Hv Hp Hk.
  rewrite create_directories_list in H.
  apply create_directories_body_spec in H as [_ H].
  destruct (H v Hv) as (p' & Hp' & Hs & _).
  assert (p' = p) as -> by congruence.
  by apply wf_fs_prefixes.
Qed.

(** *** The records of [create_directories] *)

Lemma appends_read {A} P (f : world bytes → exn + A) :
  appends (bytes:=bytes) P (λ w, (f w, w)).
Proof. intros w r w' [= <- <-]. exists []. by rewrite app_nil_r. Qed.

Lemma appends_emit P ev : P ev = true → appends (bytes:=bytes) P (emit ev).
Proof. intros HP w r w' [= <- <-]. exists [ev]. simpl. by rewrite HP. Qed.

Lemma appends_bind {A B} P (m : M bytes A) (k : A → M bytes B) :
  appends P m → (∀ x, appends P (k x)) → appends P (bind m k).
Proof.
  intros Hm Hk w r w'. unfold bind.
  destruct (m w) as [[e|x] w1] eqn:H1.
  - intros [= <- <-]. by eapply Hm.
  - intros H2. apply Hk in H2 as (evs2 & E2 & F2).
    apply Hm in H1 as (evs1 & E1 & F1).
    exists (evs1 ++ evs2)%list. rewrite E2, E1, <- app_assoc. split; [done|].
    by rewrite forallb_app, F1, F2.
Qed.

Lemma appends_try {A} P (m : M bytes A) (h : exn → M bytes A) :
  appends P m → (∀ e, appends P (h e)) → appends P (try_except m h).
Proof.
  intros Hm Hh w r w'. unfold try_except.
  destruct (m w) as [[e|x] w1] eqn:H1.
  - intros H2. apply Hh in H2 as (evs2 & E2 & F2).
    apply Hm in H1 as (evs1 & E1 & F1).
    exists (evs1 ++ evs2)%list. rewrite E2, E1, <- app_assoc. split; [done|].
    by rewrite forallb_app, F1, F2.
  - intros [= <- <-]. by eapply Hm.
Qed.

Lemma appends_mkdir_exist_ok p : appends is_mkdir (mkdir_exist_ok p).
Proof.
  apply appends_try.
  - apply appends_bind; [by apply appends_emit|]. intros _ w r w'.
    destruct (node_at (fs w) p) as [n|].
    { intros [= <- <-]. exists []. by rewrite app_nil_r. }
    destruct (node_at (fs w) (parent p)) as [[|b]|];
      [destruct (denied p)|..]; intros [= <- <-]; exists [];
      by rewrite app_nil_r.
  - intros e. destruct e; try apply appends_read.
    apply appends_bind; [apply appends_read|].
    intros []; apply appends_read.
Qed.

Lemma appends_makedirs p : appends is_mkdir (makedirs p).
Proof.
  unfold makedirs. induction (rev p) as [|s rhead IH]; simpl.
  { apply appends_mkdir_exist_ok. }
  apply appends_bind; [apply appends_read|]. intros ex.
  apply appends_bind; [|intros _; apply appends_mkdir_exist_ok].
  destruct ex; [apply appends_read|].
  apply appends_try; [done|].
  intros e. destruct e as [| | | |[] ?| | |]; apply appends_read.
Qed.

Lemma info_lines_app t1 t2 :
  info_lines (t1 ++ t2) = info_lines t1 + info_lines t2.
Proof. unfold info_lines. by rewrite filter_app, length_app. Qed.

Lemma mkdir_events_no_records evs :
  forallb is_mkdir evs = true → info_lines evs = 0 ∧ error_lines evs = 0.
Proof.
  induction evs as [|ev evs IH]; simpl; [done|].
  intros [Hev Hevs]%andb_prop. destruct (IH Hevs) as [IH1 IH2].
  destruct ev; try discriminate Hev.
  by change (info_lines evs = 0 ∧ error_lines evs = 0).
Qed.

Lemma create_directories_body_records l verbose : ∀ w w',
  create_directories_body l verbose w = (inr tt, w') →
  info_lines (trace w') = info_lines (trace w) + (if verbose then length l else 0) ∧
  error_lines (trace w') = error_lines (trace w).
Proof.
  induction l as [|v l IH]; intros w w'; simpl.
  { intros [= <-]. by destruct verbose; rewrite Nat.add_0_r. }
  unfold bind at 1. unfold lift at 1.
  destruct (fspath v) as [e|p]; [done|].
  unfold bind at 1. unfold path_exists at 1. simpl.
  unfold bind at 1.
  assert (Hlog : ∀ msg w0 w1,
            when verbose (logger_info msg) w0 = (inr tt, w1) →
            info_lines (trace w1) = info_lines (trace w0) + (if verbose then 1 else 0) ∧
            error_lines (trace w1) = error_lines (trace w0)).
  { intros msg w0 w1. destruct verbose; simpl; intros [= <-]; simpl.
    - rewrite info_lines_app, error_lines_app. unfold info_lines, error_lines.
      simpl. lia.
    - lia. }
  destruct (bool_decide (is_Some (node_at (fs w) p))); simpl.
  - destruct (when verbose _ w) as [[e|[]] w0] eqn:Hw; [done|].
    apply Hlog in Hw as [Hi He]. intros H. apply IH in H as [Hi' He'].
    destruct verbose; lia.
  - unfold bind at 1.
    destruct (makedirs p w) as [[e|[]] w0] eqn:Hm; [done|].
    apply appends_makedirs in Hm as (evs & Et & Hevs).
    apply mkdir_events_no_records in Hevs as [Hi0 He0].
    destruct (when verbose _ w0) as [[e|[]] w1] eqn:Hw; [done|].
    apply Hlog in Hw as [Hi He]. intros H. apply IH in H as [Hi' He'].
    rewrite Et, info_lines_app in Hi. rewrite Et, error_lines_app in He.
    destruct verbose; lia.
Qed.

(** X17: A call of [create_directories] that returns normally has logged one
    informational record for each listed path when [verbose], none
    otherwise, and no error record. *)
Theorem create_directories_records l verbose w w' :
  create_directories (PList l) verbose w = (inr tt, w') →
  info_lines (trace w') = info_lines (trace w) + (if verbose then length l else 0) ∧
  error_lines (trace w') = error_lines (trace w).
Proof.
  rewrite create_directories_list. apply create_directories_body_records.
Qed.

Lemma bind_assoc {A B C} (m : M bytes A) (k : A → M bytes B)
    (h : B → M bytes C) w :
  bind (bind m k) h w = bind m (λ x, bind (k x) h) w.
Proof. unfold bind. by destruct (m w) as [[e|x] w1]. Qed.

Lemma bind_ext {A B} (m : M bytes A) (k k' : A → M bytes B) w :
  (∀ x w1, k x w1 = k' x w1) → bind m k w = bind m k' w.
Proof. intros H. unfold bind. by destruct (m w) as [[e|x] w1]. Qed.

Lemma create_directories_body_app l1 l2 verbose : ∀ w,
  create_directories_body (l1 ++ l2) verbose w =
    bind (create_directories_body l1 verbose)
      (λ _, create_directories_body l2 verbose) w.
Proof.
  induction l1 as [|v l1 IH]; intros w; simpl; [done|].
  rewrite bind_assoc. apply bind_ext. intros p w1.
  rewrite bind_assoc. apply bind_ext. intros ex w2.
  rewrite bind_assoc. apply bind_ext. intros _ w3. apply IH.
Qed.

(** X18: The paths are processed in list order and the loop stops at the first
    failure, keeping what it has made: a call on [l1 ++ l2] is the call on
    [l1] and, if that returns normally, the call on [l2] in the world it
    left. *)
Theorem create_directories_app l1 l2 verbose w :
  create_directories (PList (l1 ++ l2)) verbose w =
    match create_directories (PList l1) verbose w with
    | (inr _, w1) => create_directories (PList l2) verbose w1
    | failure => failure
    end.
Proof.
  rewrite !create_directories_list, create_directories_body_app. unfold bind.
  destruct (create_directories_body l1 verbose w) as [[e|[]] w1]; [done|].
  by rewrite create_directories_list.
Qed.

(** *** The project skeleton *)

Lemma evolves_refl w : evolves w w.
Proof. split; auto. Qed.

Lemma evolves_add_trace w evs : evolves w (add_trace w evs).
Proof. split; auto. Qed.

Lemma evolves_keeps_dir w w' q :
  evolves w w' → node_at (fs w) q = Some Dir → node_at (fs w') q = Some Dir.
Proof.
  intros [_ H] Hq. destruct (H q) as [E|(_ & [(E & _)|(_ & _ & [E|(b & E & _)])])];
    congruence.
Qed.

Lemma evolves_trans w1 w2 w3 : evolves w1 w2 → evolves w2 w3 → evolves w1 w3.
Proof.
  intros H12 H23. pose proof (λ q, evolves_keeps_dir w2 w3 q H23) as Hdir.
  destruct H12 as [Hc1 H1], H23 as [Hc2 H2]. split; [congruence|]. intros q.
  destruct (H2 q) as [E2|(P2 & C2)].
  - destruct (H1 q) as [E1|(P1 & C1)]; [left; congruence|].
    right. split; [by apply Hdir|]. rewrite E2.
    destruct C1 as [(? & ?)|(? & ? & ?)]; [by left|by right].
  - right. split; [done|].
    destruct (H1 q) as [E1|(P1 & C1)]; [by rewrite <- E1|].
    destruct C1 as [(N1 & D2)|(F2 & Hden & N1)];
      destruct C2 as [(N2 & D3)|(F3 & _ & [N2|(b & N2 & _)])]; try congruence;
      by right.
Qed.

Lemma mkdirs_only_evolves w w' : mkdirs_only w w' → evolves w w'.
Proof.
  intros [Hc H]. split; [done|]. intros q.
  destruct (H q) as [E|(E & E' & E'')]; [by left|].
  right. split; [done|]. by left.
Qed.

Lemma wf_fs_evolves w w' : wf_fs (fs w) → evolves w w' → wf_fs (fs w').
Proof.
  intros Hwf Hev q n Hq. destruct (proj2 Hev q) as [E|(E & _)]; [|done].
  rewrite E in Hq. apply Hwf in Hq. by eapply evolves_keeps_dir.
Qed.

Lemma settled_evolves w w' p : settled w p → evolves w w' → settled w' p.
Proof.
  intros [Hpar Hp] Hev. split; [by eapply evolves_keeps_dir|].
  destruct (proj2 Hev p) as [E|(_ & C)]; [by rewrite E|].
  destruct Hp as [(Hd & ?)|[(b & Hb & Hsz)|(Hb & Hden)]].
  - left. split; [by eapply evolves_keeps_dir|done].
  - destruct C as [(N & _)|(F & Hden & [N|(b' & N & Hz)])]; congruence.
  - destruct C as [(N & _)|(F & Hden' & _)]; [congruence|]. by right; right.
Qed.

Lemma parent_neq p : p ≠ [] → parent p ≠ p.
Proof.
  intros Hp E. unfold parent in E. rewrite removelast_firstn_len in E.
  apply (f_equal length) in E. rewrite length_take in E.
  destruct p; simpl in *; [done|lia].
Qed.

(** [open(p, "w")] on a path that holds nothing, or an empty file. *)
Lemma open_write_evolves p w r w' :
  node_at (fs w) p = None ∨
    (∃ b, node_at (fs w) p = Some (File b) ∧ size_of b = 0%N) ∨
    node_at (fs w) p = Some Dir →
  open_write p w = (r, w') →
  evolves w w' ∧
  (r = inr tt →
   node_at (fs w') p = Some (File bytes_empty) ∧ denied p = false ∧
   node_at (fs w') (parent p) = Some Dir).
Proof.
  intros Hp. unfold open_write, bind, emit, set_node, add_trace. simpl.
  assert (Hev0 : evolves w (World (fs w) (yaml_cache w) (trace w ++ [EvOpen p Wr])))
    by apply (evolves_add_trace w).
  assert (Hempty : (node_at (fs w) p = None ∨
            (∃ b, node_at (fs w) p = Some (File b) ∧ size_of b = 0%N)) →
          node_at (fs w) (parent p) = Some Dir → denied p = false →
          let w1 := World (<[p := File bytes_empty]> (fs w)) (yaml_cache w)
                      (trace w ++ [EvOpen p Wr]) in
          evolves w w1 ∧
          (node_at (fs w1) p = Some (File bytes_empty) ∧ denied p = false ∧
           node_at (fs w1) (parent p) = Some Dir)).
  { intros Hn Hpar Hden w1.
    assert (p ≠ []).
    { intros ->. destruct Hn as [?|(? & ? & ?)]; done. }
    assert (Hpp : parent p ≠ p) by (by apply parent_neq).
    assert (Hpar1 : node_at (fs w1) (parent p) = Some Dir).
    { unfold w1; simpl. rewrite node_at_insert by done.
      by rewrite decide_False by done. }
    assert (Hp1 : node_at (fs w1) p = Some (File bytes_empty)).
    { unfold w1; simpl. rewrite node_at_insert by done.
      by rewrite decide_True by done. }
    split; [|done]. split; [done|]. intros q.
    destruct (decide (p = q)) as [<-|Hne].
    - right. split; [done|]. right. done.
    - left. unfold w1; simpl. rewrite node_at_insert by done.
      by rewrite decide_False by done. }
  destruct (node_at (fs w) p) as [[|b]|] eqn:Hn.
  { intros [= <- <-]. split; [done|discriminate]. }
  - destruct (node_at (fs w) (parent p)) as [[|b']|] eqn:Hpar;
      try (intros [= <- <-]; split; [done|discriminate]).
    destruct (denied p) eqn:Hden;
      [intros [= <- <-]; split; [done|discriminate]|].
    intros [= <- <-]. simpl.
    destruct Hempty as [Hev Hres]; [|done..|by split].
    right. destruct Hp as [?|[(b0 & Hb0 & Hz)|?]]; try done.
    exists b. split; [done|]. congruence.
  - destruct (node_at (fs w) (parent p)) as [[|b']|] eqn:Hpar;
      try (intros [= <- <-]; split; [done|discriminate]).
    destruct (denied p) eqn:Hden;
      [intros [= <- <-]; split; [done|discriminate]|].
    intros [= <- <-]. simpl.
    destruct Hempty as [Hev Hres]; [by left|done..|by split].
Qed.

Lemma template_dir_spec p w r w' :
  template_dir p w = (r, w') →
  evolves w w' ∧ (r = inr tt → node_at (fs w') (parent p) = Some Dir).
Proof.
  unfold template_dir. case_decide as Hd.
  { intros [= <- <-]. split; [apply evolves_refl|]. by rewrite Hd. }
  unfold bind, logging_info, emit.
  destruct (makedirs (parent p) w) as [[e|[]] w0] eqn:Hm.
  - intros [= <- <-]. apply makedirs_only in Hm.
    split; [by apply mkdirs_only_evolves|discriminate].
  - intros [= <- <-]. pose proof (makedirs_only _ _ _ _ Hm) as Hev.
    apply makedirs_spec in Hm as [_ Hdir]. split; [|by intros _; apply Hdir].
    eapply evolves_trans; [by apply mkdirs_only_evolves|apply evolves_add_trace].
Qed.

Lemma template_file_spec p w r w' :
  node_at (fs w) (parent p) = Some Dir →
  template_file p w = (r, w') →
  evolves w w' ∧ (r = inr tt → settled w' p).
Proof.
  intros Hpar. unfold template_file.
  unfold bind at 1. unfold path_exists at 1. simpl.
  assert (Hcreate : ∀ r w',
            (node_at (fs w) p = None ∨
               (∃ b, node_at (fs w) p = Some (File b) ∧ size_of b = 0%N) ∨
               node_at (fs w) p = Some Dir) →
            bind (open_write p)
              (λ _, logging_info ("Creating empty file: " +:+ path_str p)) w
            = (r, w') →
            evolves w w' ∧ (r = inr tt → settled w' p)).
  { intros r0 w0 Hn. unfold bind, logging_info, emit.
    destruct (open_write p w) as [[e|[]] w1] eqn:Ho;
      apply (open_write_evolves p w _ w1 Hn) in Ho as [Hev Hres];
      intros [= <- <-]; [split; [done|discriminate]|].
    split; [eapply evolves_trans; [done|apply evolves_add_trace]|].
    intros _. destruct (Hres eq_refl) as (Hf & Hden & Hp').
    split; [done|]. by right; right. }
  assert (Hkeep : ∀ r w',
            logging_info (filename_of p +:+ " already exists") w = (r, w') →
            (node_at (fs w) p = Some Dir ∧ dir_size ≠ 0%N) ∨
              (∃ b, node_at (fs w) p = Some (File b) ∧ size_of b ≠ 0%N) →
            evolves w w' ∧ (r = inr tt → settled w' p)).
  { intros r0 w0 [= <- <-] Hn. split; [apply evolves_add_trace|].
    intros _. split; [done|]. destruct Hn; auto. }
  destruct (node_at (fs w) p) as [[|b]|] eqn:Hn; simpl.
  - unfold bind at 1 2. unfold getsize at 1. rewrite Hn. simpl.
    destruct (N.eqb_spec dir_size 0) as [Hz|Hz].
    + apply Hcreate. auto.
    + intros H. eapply Hkeep; [done|]. auto.
  - unfold bind at 1 2. unfold getsize at 1. rewrite Hn. simpl.
    destruct (N.eqb_spec (size_of b) 0) as [Hz|Hz].
    + apply Hcreate. right; left; eauto.
    + intros H. eapply Hkeep; [done|]. right; eauto.
  - unfold bind at 1. simpl. apply Hcreate. auto.
Qed.

Lemma template_step_spec p w r w' :
  template_step p w = (r, w') →
  evolves w w' ∧ (r = inr tt → settled w' p).
Proof.
  unfold template_step, bind.
  destruct (template_dir p w) as [[e|[]] w0] eqn:Hd;
    apply template_dir_spec in Hd as [Hev Hpar].
  { intros [= <- <-]. split; [done|discriminate]. }
  intros Hf. apply template_file_spec in Hf as [Hev' Hs]; [|by apply Hpar].
  split; [by eapply evolves_trans|done].
Qed.

Lemma template_loop_spec files : ∀ w r w',
  template_loop files w = (r, w') →
  evolves w w' ∧ (r = inr tt → ∀ p, p ∈ files → settled w' p).
Proof.
  induction files as [|p files IH]; intros w r w'; simpl.
  { intros [= <- <-]. split; [apply evolves_refl|].
    intros _ p Hp. by apply elem_of_nil in Hp. }
  unfold bind.
  destruct (template_step p w) as [[e|[]] w0] eqn:Hs;
    apply template_step_spec in Hs as [Hev Hp].
  { intros [= <- <-]. split; [done|discriminate]. }
  intros H. apply IH in H as [Hev' Hrest].
  split; [by eapply evolves_trans|].
  intros -> q [->|Hq]%elem_of_cons; [|by apply Hrest].
  eapply settled_evolves; [by apply Hp|done].
Qed.

(** X19: Whatever the outcome, a run of the skeleton loop destroys nothing: a
    directory stays a directory, a file that is not empty keeps its
    content, a file stays a file, and the cache is untouched. *)
Theorem template_loop_keeps_content files w r w' :
  template_loop files w = (r, w') →
  (∀ q, node_at (fs w) q = Some Dir → node_at (fs w') q = Some Dir) ∧
  (∀ q b, node_at (fs w) q = Some (File b) → size_of b ≠ 0%N →
     node_at (fs w') q = Some (File b)) ∧
  (∀ q b, node_at (fs w) q = Some (File b) →
     ∃ b', node_at (fs w') q = Some (File b')) ∧
  yaml_cache w' = yaml_cache w.
Proof.
  intros H. apply template_loop_spec in H as [Hev _].
  split; [intros q; by apply evolves_keeps_dir|].
  destruct Hev as [Hc Hev]. split; [|split; [|done]].
  - intros q b Hq Hsz.
    destruct (Hev q) as [E|(_ & [(E & _)|(_ & _ & [E|(b' & E & Hz)])])];
      congruence.
  - intros q b Hq.
    destruct (Hev q) as [E|(_ & [(E & _)|(E & _)])]; [|congruence|eauto].
    rewrite E. eauto.
Qed.

(** X20: After a run of the skeleton loop that returns normally, every listed
    path exists and lies in a directory, and a file system in which every
    entry lies in a directory is still one. *)
Theorem template_loop_creates files w w' :
  template_loop files w = (inr tt, w') →
  (∀ p, p ∈ files →
     is_Some (node_at (fs w') p) ∧ node_at (fs w') (parent p) = Some Dir) ∧
  (wf_fs (fs w) → wf_fs (fs w')).
Proof.
  intros H. apply template_loop_spec in H as [Hev Hs].
  split; [|intros Hwf; by eapply wf_fs_evolves].
  intros p Hp. destruct (Hs eq_refl p Hp) as [Hpar Hn]. split; [|done].
  destruct Hn as [(-> & _)|[(b & -> & _)|(-> & _)]]; eauto.
Qed.

Lemma makedirs_existing d w :
  wf_fs (fs w) → d ≠ [] → node_at (fs w) d = Some Dir →
  makedirs d w = (inr tt, add_trace w [EvMkdir d]).
Proof.
  intros Hwf Hd Hn. unfold makedirs.
  destruct (rev d) as [|s rhead] eqn:Hr.
  { apply (f_equal (λ l, rev l)) in Hr; simpl in Hr. rewrite rev_involutive in Hr. by subst. }
  assert (Ed : d = (rev rhead ++ [s])%list).
  { apply (f_equal (λ l, rev l)) in Hr; simpl in Hr. by rewrite rev_involutive in Hr. }
  simpl. rewrite <- Ed.
  assert (Hpar : node_at (fs w) (rev rhead) = Some Dir).
  { apply Hwf in Hn. unfold parent in Hn. by rewrite Ed, removelast_last in Hn. }
  unfold bind at 1 2. unfold path_exists at 1. simpl. rewrite Hpar. simpl.
  unfold mkdir_exist_ok, try_except, mkdir, bind, emit, path_isdir, ret.
  simpl. rewrite Hn. simpl. by rewrite Hn.
Qed.

Lemma template_step_settled p w :
  wf_fs (fs w) → settled w p →
  ∃ evs, template_step p w = (inr tt, add_trace w evs).
Proof.
  intros Hwf [Hpar Hn]. unfold template_step.
  assert (∃ evs, template_dir p w = (inr tt, add_trace w evs)) as [evs1 Hd].
  { unfold template_dir. case_decide as Hd.
    { exists []. by rewrite add_trace_nil. }
    unfold bind, logging_info, emit. rewrite makedirs_existing by done.
    rewrite add_trace_add_trace. eauto. }
  unfold bind at 1. rewrite Hd.
  unfold template_file, bind, path_exists, getsize, logging_info, emit. simpl.
  destruct Hn as [(Hp & Hz)|[(b & Hp & Hz)|(Hp & Hden)]];
    repeat (rewrite Hp; simpl); unfold ret.
  - rewrite (proj2 (N.eqb_neq _ _) Hz). rewrite add_trace_add_trace. eauto.
  - rewrite (proj2 (N.eqb_neq _ _) Hz). rewrite add_trace_add_trace. eauto.
  - destruct (size_of bytes_empty =? 0)%N;
      [|rewrite add_trace_add_trace; eauto].
    unfold open_write, bind, emit, set_node. simpl. rewrite Hp, Hpar, Hden.
    simpl. assert (p ≠ []) by (by intros ->).
    rewrite insert_id by (by destruct p).
    unfold add_trace; simpl. rewrite <- !app_assoc. eauto.
Qed.

Lemma template_loop_settled files : ∀ w,
  wf_fs (fs w) → (∀ p, p ∈ files → settled w p) →
  ∃ evs, template_loop files w = (inr tt, add_trace w evs).
Proof.
  induction files as [|p files IH]; intros w Hwf Hs; simpl.
  { exists []. by rewrite add_trace_nil. }
  destruct (template_step_settled p w Hwf) as [evs1 H1]; [apply Hs; by left|].
  unfold bind. rewrite H1.
  destruct (IH (add_trace w evs1)) as [evs2 H2]; [done|..].
  { intros q Hq. apply (Hs q). by right. }
  rewrite H2, add_trace_add_trace. eauto.
Qed.

(** X21: Running the skeleton loop again changes nothing: on a file system in
    which every entry lies in a directory, after a run that returned
    normally a second run over the same list returns normally and leaves
    the file system and the cache as they are; it only appends to the
    trace. *)
Theorem template_loop_idempotent files w w1 :
  wf_fs (fs w) →
  template_loop files w = (inr tt, w1) →
  ∃ evs, template_loop files w1 = (inr tt, add_trace w1 evs).
Proof.
  intros Hwf H. apply template_loop_spec in H as [Hev Hs].
  apply template_loop_settled; [by eapply wf_fs_evolves|by apply Hs].
Qed.

(** *** More on [read_yaml] *)

(** X1: A successful load: on a path that is not cached and whose file opens,
    parses and wraps, [read_yaml] returns the [ConfigBox] of the parsed
    content and stores it in the cache under the path; the file system is
    untouched and the trace grows by the open, the success record and the
    cache assignment, in this order. *)
Theorem read_yaml_loads_document p w b content c :
  yaml_cache w !! p = None →
  read_file (fs w) p = inr b →
  yaml_safe_load b = inr content →
  Box_init content = inr c →
  read_yaml (PPath p) w =
    (inr c,
     World (fs w) (<[p := c]> (yaml_cache w))
       (trace w ++ [EvOpen p Rd;
                    EvLog INFO ("yaml file: " +:+ path_str p +:+ " loaded successfully");
                    EvCache p])).
Proof.
  intros Hc Hf Hy Hb.
  by rewrite read_yaml_path, (read_yaml_body_miss p w Hc), Hf, Hy, Hb.
Qed.



(** X3: Every document on which [ConfigBox] raises [BoxValueError] is reported
    as empty: not only [None] but also a bare string, number or boolean
    makes [read_yaml] raise [ValueError("yaml file is empty")], with the
    success record logged, no error record and nothing cached. *)
Theorem read_yaml_scalar_reported_empty p w b content :
  yaml_cache w !! p = None →
  read_file (fs w) p = inr b →
  yaml_safe_load b = inr content →
  is_scalar content = true →
  read_yaml (PPath p) w =
    (inl (ValueError "yaml file is empty"),
     add_trace w [EvOpen p Rd; EvLog INFO (msg_loaded p)]).
Proof.
  intros Hc Hf Hy Hs.
  rewrite read_yaml_path, (read_yaml_body_miss p w Hc), Hf, Hy.
  by destruct content.
Qed.

(** *** What the functions leave alone *)

Lemma leaves_read {X A} (g : world bytes → X) (f : world bytes → exn + A) :
  leaves g (λ w, (f w, w)).
Proof. by intros w r w' [= <- <-]. Qed.

Lemma leaves_bind {X A B} (g : world bytes → X) (m : M bytes A)
    (k : A → M bytes B) :
  leaves g m → (∀ x, leaves g (k x)) → leaves g (bind m k).
Proof.
  intros Hm Hk w r w'. unfold bind.
  destruct (m w) as [[e|x] w1] eqn:H1.
  - intros [= <- <-]. by eapply Hm.
  - intros H2. apply Hk in H2. apply Hm in H1. congruence.
Qed.

Lemma leaves_try {X A} (g : world bytes → X) (m : M bytes A)
    (h : exn → M bytes A) :
  leaves g m → (∀ e, leaves g (h e)) → leaves g (try_except m h).
Proof.
  intros Hm Hh w r w'. unfold try_except.
  destruct (m w) as [[e|x] w1] eqn:H1.
  - intros H2. apply Hh in H2. apply Hm in H1. congruence.
  - intros [= <- <-]. by eapply Hm.
Qed.

Lemma leaves_ensure {X A} (g : world bytes → X) args t (to_py : A → pyval)
    (f : M bytes A) :
  leaves g f → leaves g (ensure_annotations args t to_py f).
Proof.
  intros Hf. apply leaves_bind; [apply leaves_read|]. intros _.
  apply leaves_bind; [done|]. intros x.
  destruct t; [|apply leaves_read].
  apply leaves_bind; [apply leaves_read|intros _; apply leaves_read].
Qed.

Lemma leaves_fs_emit ev : leaves (bytes:=bytes) fs (emit ev).
Proof. by intros w r w' [= <- <-]. Qed.

Lemma leaves_cache_emit ev : leaves (bytes:=bytes) yaml_cache (emit ev).
Proof. by intros w r w' [= <- <-]. Qed.

Lemma leaves_fs_open_read p : leaves (bytes:=bytes) fs (open_read p).
Proof. apply leaves_bind; [apply leaves_fs_emit|intros _; apply leaves_read]. Qed.

Lemma leaves_cache_open_read p : leaves (bytes:=bytes) yaml_cache (open_read p).
Proof. apply leaves_bind; [apply leaves_cache_emit|intros _; apply leaves_read]. Qed.

Lemma leaves_cache_set_node p n : leaves (bytes:=bytes) yaml_cache (set_node p n).
Proof. by intros w r w' [= <- <-]. Qed.

Lemma leaves_cache_open_write p : leaves (bytes:=bytes) yaml_cache (open_write p).
Proof.
  apply leaves_bind; [apply leaves_cache_emit|]. intros _ w r w'.
  destruct (node_at (fs w) p) as [[|b]|];
    try (by intros [= <- <-]);
    destruct (node_at (fs w) (parent p)) as [[|b']|];
    try (by intros [= <- <-]);
    destruct (denied p); by intros [= <- <-].
Qed.

Lemma leaves_fs_read_yaml_body p : leaves (bytes:=bytes) fs (read_yaml_body p).
Proof.
  intros w r w'. unfold read_yaml_body.
  destruct (yaml_cache w !! p) as [c|].
  { by intros [= <- <-]. }
  apply leaves_try.
  - apply leaves_bind; [apply leaves_fs_open_read|]. intros b.
    apply leaves_bind; [apply leaves_read|]. intros content.
    apply leaves_bind; [apply leaves_fs_emit|]. intros _.
    apply leaves_bind; [apply leaves_read|]. intros c.
    apply leaves_bind; [|intros _; apply leaves_read].
    apply leaves_bind; [|intros _; apply leaves_fs_emit].
    by intros w0 r0 w0' [= <- <-].
  - intros e. destruct e; try apply leaves_read;
      (apply leaves_bind; [apply leaves_fs_emit|intros _; apply leaves_read]).
Qed.

Lemma leaves_load_json_body {X} (g : world bytes → X) p :
  (∀ ev, leaves g (emit ev)) → leaves g (load_json_body p).
Proof.
  intros Hemit.
  apply leaves_bind.
  { apply leaves_bind; [apply Hemit|intros _; apply leaves_read]. }
  intros f. apply leaves_bind; [apply leaves_read|]. intros j.
  apply leaves_bind; [apply Hemit|]. intros _. apply leaves_read.
Qed.

Lemma leaves_load_bin_body {X} (g : world bytes → X) p :
  (∀ ev, leaves g (emit ev)) → leaves g (load_bin_body p).
Proof.
  intros Hemit.
  apply leaves_bind.
  { apply leaves_bind; [apply Hemit|intros _; apply leaves_read]. }
  intros f. apply leaves_bind; [apply leaves_read|]. intros x.
  apply leaves_bind; [apply Hemit|]. intros _. apply leaves_read.
Qed.

Lemma get_size_unchanged a w r w' : get_size a w = (r, w') → w' = w.
Proof.
  revert w r w'. apply (leaves_ensure id), leaves_bind; [apply leaves_read|].
  intros p. apply leaves_bind.
  { intros w r w'. unfold getsize.
    destruct (node_at (fs w) p) as [[|b]|]; by intros [= <- <-]. }
  intros n. destruct (n <? 1024)%N; [apply leaves_read|].
  destruct (n <? 1024 ^ 2)%N; apply leaves_read.
Qed.

(** X4: The four reading functions never write the file system, whatever
    their argument and however they end; [get_size] leaves the whole world,
    trace included, as it is. *)
Theorem readers_leave_file_system :
  (∀ a w r w', read_yaml a w = (r, w') → fs w' = fs w) ∧
  (∀ a w r w', load_json a w = (r, w') → fs w' = fs w) ∧
  (∀ a w r w', load_bin a w = (r, w') → fs w' = fs w) ∧
  (∀ a w r w', get_size a w = (r, w') → w' = w).
Proof.
  repeat split.
  - intros a. apply leaves_ensure, leaves_bind; [apply leaves_read|].
    apply leaves_fs_read_yaml_body.
  - intros a. apply leaves_ensure, leaves_bind; [apply leaves_read|].
    intros p. apply leaves_load_json_body, leaves_fs_emit.
  - intros a. apply leaves_ensure, leaves_bind; [apply leaves_read|].
    intros p. apply leaves_load_bin_body, leaves_fs_emit.
  - apply get_size_unchanged.
Qed.

(** X5: Only [read_yaml] writes the cache: the six other functions leave it
    as it is, whatever their arguments and however they end. *)
Theorem cache_written_by_read_yaml_only :
  (∀ a v w r w', create_directories a v w = (r, w') → yaml_cache w' = yaml_cache w) ∧
  (∀ a d w r w', save_json a d w = (r, w') → yaml_cache w' = yaml_cache w) ∧
  (∀ a w r w', load_json a w = (r, w') → yaml_cache w' = yaml_cache w) ∧
  (∀ d a w r w', save_bin d a w = (r, w') → yaml_cache w' = yaml_cache w) ∧
  (∀ a w r w', load_bin a w = (r, w') → yaml_cache w' = yaml_cache w) ∧
  (∀ a w r w', get_size a w = (r, w') → yaml_cache w' = yaml_cache w).
Proof.
  split; [|split; [|split; [|split; [|split]]]].
  - intros a v w r w' H. by apply create_directories_mkdirs_only in H as [? _].
  - intros a d. apply leaves_ensure, leaves_bind; [apply leaves_read|]. intros p.
    apply leaves_bind; [apply leaves_read|]. intros d'.
    apply leaves_bind; [apply leaves_cache_open_write|]. intros _.
    apply leaves_bind; [|intros _; apply leaves_cache_emit].
    destruct (json_of_py d'); [|apply leaves_cache_set_node].
    apply leaves_bind; [apply leaves_cache_set_node|intros _; apply leaves_read].
  - intros a. apply leaves_ensure, leaves_bind; [apply leaves_read|].
    intros p. apply leaves_load_json_body, leaves_cache_emit.
  - intros d a. apply leaves_ensure, leaves_bind; [apply leaves_read|]. intros p.
    apply leaves_bind; [apply leaves_cache_open_write|]. intros _.
    apply leaves_bind; [apply leaves_cache_set_node|]. intros _.
    apply leaves_bind; [|intros _; apply leaves_cache_emit].
    destruct (joblib_dumps d).2; apply leaves_read.
  - intros a. apply leaves_ensure, leaves_bind; [apply leaves_read|].
    intros p. apply leaves_load_bin_body, leaves_cache_emit.
  - intros a w r w' H.
    by apply get_size_unchanged in H as ->.
Qed.

(** *** More on the JSON artifacts *)

(** X6: [load_json] has no empty-document case: on a document that is [null]
    or a bare scalar the success record is logged and the [BoxValueError]
    of [ConfigBox] reaches the caller as it is. *)
Theorem load_json_scalar_document p w b j :
  read_file (fs w) p = inr b →
  json_parse b = inr j →
  is_scalar (py_of_json j) = true →
  ∃ msg,
    load_json (PPath p) w =
      (inl (BoxValueError msg),
       add_trace w [EvOpen p Rd;
                    EvLog INFO ("JSON file loaded successfully from: " +:+ path_str p)]).
Proof.
  intros Hf Hj Hs. rewrite load_json_path.
  unfold load_json_body, open_read, bind, emit, lift, logger_info, emit.
  simpl. rewrite Hf, Hj. rewrite add_trace_add_trace. simpl.
  destruct (py_of_json j); try discriminate Hs; simpl; eauto.
Qed.

(** X7: Reading a path that does not exist: [load_json] and [load_bin] try one
    open, [get_size] none, and each raises the [OSError] of the system
    call, [ENOENT] or [ENOTDIR], whose message names the path; nothing is
    logged. *)
Theorem readers_on_missing_path p w :
  node_at (fs w) p = None →
  ∃ errno,
    (errno = ENOENT ∨ errno = ENOTDIR) ∧
    str_exn (OSError errno p) = strerror errno +:+ ": '" +:+ path_str p +:+ "'" ∧
    load_json (PPath p) w = (inl (OSError errno p), add_trace w [EvOpen p Rd]) ∧
    load_bin (PPath p) w = (inl (OSError errno p), add_trace w [EvOpen p Rd]) ∧
    get_size (PPath p) w = (inl (OSError errno p), w).
Proof.
  intros Hp. exists (errno_unresolved (fs w) p).
  split; [unfold errno_unresolved; destruct (existsb _ _); auto|].
  split; [done|].
  unfold load_json, load_bin, get_size, ensure_annotations, load_json_body,
    load_bin_body, get_size_body, open_read, getsize, bind, emit, lift,
    read_file; simpl.
  by rewrite Hp.
Qed.

Lemma save_json_body_effect p d w r w' :
  save_json_body p d w = (r, w') →
  (∀ q, q ≠ p → node_at (fs w') q = node_at (fs w) q) ∧
  (r = inr tt →
   ∃ j, json_of_py d = inr j ∧
        node_at (fs w') p = Some (File (json_print j)) ∧
        denied p = false ∧
        trace w' = (trace w ++ [EvOpen p Wr;
                                EvLog INFO ("JSON file saved at: " +:+ path_str p)])%list).
Proof.
  unfold save_json_body, open_write, bind, emit, set_node, logger_info, emit,
    add_trace, ret, raise. simpl.
  destruct (node_at (fs w) p) as [[|b]|] eqn:Hn;
    [intros [= <- <-]; split; [done|discriminate]|..].
  all: assert (p ≠ []) by (intros ->; simpl in Hn; done).
  all: destruct (node_at (fs w) (parent p)) as [[|b']|];
    try (intros [= <- <-]; split; [done|discriminate]).
  all: destruct (denied p) eqn:Hden;
    [intros [= <- <-]; split; [done|discriminate]|].
  all: simpl; destruct (json_of_py d) as [e0|j]; simpl; intros [= <- <-]; simpl.
  all: split;
    [intros q Hq; rewrite !node_at_insert by done;
     by rewrite !decide_False by done|].
  all: try discriminate.
  all: intros _; exists j; split; [done|]; split; [|split; [done|]];
    [rewrite node_at_insert by done; by rewrite decide_True by done
    |by rewrite <- app_assoc].
Qed.

(** X8: [save_json] writes its target only: every other path holds what it
    held, however the call ends; when it returns normally the target holds
    the JSON text of the document and the trace has grown by the open for
    writing and one record that the file was saved, written after it. *)
Theorem save_json_effect p d w r w' :
  save_json (PPath p) d w = (r, w') →
  (∀ q, q ≠ p → node_at (fs w') q = node_at (fs w) q) ∧
  (r = inr tt →
   ∃ j, json_of_py d = inr j ∧
        node_at (fs w') p = Some (File (json_print j)) ∧
        trace w' = (trace w ++ [EvOpen p Wr;
                                EvLog INFO ("JSON file saved at: " +:+ path_str p)])%list).
Proof.
  unfold save_json, ensure_annotations, bind, lift, ret.
  destruct d as [| | | | | | |d0|d0|]; simpl;
    try (intros [= <- <-]; split; [done|discriminate]).
  all: match goal with
       | |- context [save_json_body ?p0 ?x ?w0] =>
           destruct (save_json_body p0 x w0) as [[e|[]] w1] eqn:Hs
       end;
    apply save_json_body_effect in Hs as [Hother Hok];
    intros [= <- <-]; (split; [done|]); [discriminate|];
    intros _; destruct (Hok eq_refl) as (j & ? & ? & _ & ?); eauto.
Qed.

(** X9: A dictionary with an object that JSON cannot hold: when the target
    can be opened for writing, [save_json] raises the [TypeError] of the
    encoder after the file was truncated, so the file is left with the
    broken-off output (its former content is lost) and no record says
    that it was saved. *)
Theorem save_json_unserializable p d e w :
  isinstance d TDict = inr true →
  json_of_py d = inl e →
  node_at (fs w) p ≠ Some Dir →
  node_at (fs w) (parent p) = Some Dir →
  denied p = false →
  save_json (PPath p) d w =
    (inl e,
     World (<[p := File (json_partial d)]> (fs w)) (yaml_cache w)
       (trace w ++ [EvOpen p Wr])).
Proof.
  intros Hd Hj Hn Hpar Hden.
  unfold save_json, ensure_annotations, bind, lift, ret.
  destruct d as [| | | | | | |d0|d0|]; try discriminate Hd; simpl.
  all: unfold save_json_body, open_write, bind, emit, set_node, raise, add_trace;
    simpl; rewrite Hpar, Hden; simpl in Hj; rewrite Hj; simpl;
    (destruct (node_at (fs w) p) as [[|b]|]; [done|..]);
    simpl; by rewrite insert_insert_eq.
Qed.

Lemma json_nested_ind (P : json → Prop) :
  P JNull → (∀ b, P (JBool b)) → (∀ n, P (JNum n)) → (∀ s, P (JStr s)) →
  (∀ l, Forall P l → P (JArr l)) →
  (∀ l, Forall (λ kv, P kv.2) l → P (JObj l)) →
  (∀ x, P (JFloat x)) →
  ∀ j, P j.
Proof.
  intros HN HB HI HS HA HO HF.
  fix IH 1. intros [|b|n|s|l|l|x].
  - exact HN.
  - apply HB.
  - apply HI.
  - apply HS.
  - apply HA. induction l as [|x l IHl]; constructor; [apply IH|exact IHl].
  - apply HO. induction l as [|[k x] l IHl]; constructor; [apply IH|exact IHl].
  - apply HF.
Qed.

Lemma dict_set_keys (d : ConfigBox) k v :
  (dict_set d k v).*1 = if decide (k ∈ d.*1) then d.*1 else (d.*1 ++ [k])%list.
Proof.
  induction d as [|[k' v'] d IH]; [done|].
  cbn [dict_set]. rewrite fmap_cons. cbn [fst].
  destruct (decide (k' = k)) as [->|Hne]; rewrite fmap_cons; cbn [fst].
  - destruct (decide (k ∈ k :: d.*1)) as [H|H]; [done|]. destruct H. by left.
  - rewrite IH. destruct (decide (k ∈ d.*1)) as [Hin|Hin].
    + destruct (decide (k ∈ k' :: d.*1)) as [H|H]; [done|]. destruct H. by right.
    + destruct (decide (k ∈ k' :: d.*1)) as [H|H]; [|done].
      apply elem_of_cons in H as [?|?]; congruence.
Qed.

Lemma dict_set_NoDup (d : ConfigBox) k v :
  NoDup d.*1 → NoDup (dict_set d k v).*1.
Proof.
  intros Hnd. rewrite dict_set_keys. case_decide; [done|].
  apply NoDup_app. split; [done|]. split; [|apply NoDup_singleton].
  intros x Hx ->%list_elem_of_singleton. done.
Qed.

Lemma dict_set_forallb (Q : pykey * pyval → bool) (d : ConfigBox) k v :
  forallb Q d = true → Q (k, v) = true → forallb Q (dict_set d k v) = true.
Proof.
  intros Hd Hkv. induction d as [|[k' v'] d IH]; simpl in *.
  { by rewrite Hkv. }
  apply andb_prop in Hd as [H1 H2].
  destruct (decide (k' = k)) as [->|Hne]; simpl.
  - by rewrite Hkv, H2.
  - by rewrite H1, IH.
Qed.

(** What [json.load] builds is written back by [json.dump] as it is. *)
Lemma py_of_json_plain j : json_plain (py_of_json j) = true.
Proof.
  induction j as [|b|n|s|l IH|l IH|x] using json_nested_ind; simpl; try done.
  - induction l as [|x l IHl]; simpl; [done|].
    apply Forall_cons in IH as [Hx IH]. by rewrite Hx, IHl.
  - set (Q := λ kv : pykey * pyval,
                match kv with
                | (KStr _, x) => json_plain x
                | _ => false
                end).
    assert (Hgen : ∀ acc : ConfigBox,
              forallb Q acc = true → NoDup acc.*1 →
              let d := fold_left (λ d kv, dict_set d (KStr kv.1) kv.2)
                         (map (λ kv : string * json,
                                 match kv with (k, x) => (k, py_of_json x) end) l)
                         acc in
              forallb Q d = true ∧ NoDup d.*1).
    { induction l as [|[k x] l IHl]; intros acc Hacc Hnd; simpl; [done|].
      apply Forall_cons in IH as [Hx IH]. apply IHl; [done|..].
      - by apply dict_set_forallb.
      - by apply dict_set_NoDup. }
    destruct (Hgen []) as [HQ Hnd]; [done|apply NoDup_nil_2|].
    apply andb_true_intro. split; [exact HQ|]. by apply bool_decide_eq_true.
Qed.

Lemma load_json_body_parsed p w b j :
  read_file (fs w) p = inr b →
  json_parse b = inr j →
  load_json_body p w =
    (Box_init (py_of_json j),
     add_trace w [EvOpen p Rd;
                  EvLog INFO ("JSON file loaded successfully from: " +:+ path_str p)]).
Proof.
  intros Hf Hj.
  unfold load_json_body, open_read, bind, emit, lift, logger_info, emit.
  cbn -[py_of_json Box_init]. rewrite Hf, Hj.
  cbn -[py_of_json Box_init]. by rewrite add_trace_add_trace.
Qed.

Lemma save_load_json_body p data j w w1 :
  (∀ j, json_parse (json_print j) = inr j) →
  json_of_py data = inr j →
  save_json_body p data w = (inr tt, w1) →
  load_json_body p w1 =
    (Box_init (py_of_json j),
     add_trace w1 [EvOpen p Rd;
                   EvLog INFO ("JSON file loaded successfully from: " +:+ path_str p)]).
Proof.
  intros Hparse Hj Hs.
  apply save_json_body_effect in Hs as [_ Hs].
  destruct (Hs eq_refl) as (j' & Hj' & Hn & Hden & _).
  assert (j' = j) as -> by congruence.
  unfold load_json_body, open_read, bind, emit, lift, logger_info, emit,
    read_file. simpl.
  rewrite Hn, Hden, Hparse. by rewrite add_trace_add_trace.
Qed.

(** X10: A document that [load_json] has returned for a JSON object can be
    saved with [save_json] and loaded again, and comes back as it was:
    what [load_json] returns is a fixed point of the round trip.  The
    parser of [json.load] is assumed to read back what [json.dump]
    prints. *)
Theorem load_save_load p q w b l c w1 w2 :
  (∀ j, json_parse (json_print j) = inr j) →
  read_file (fs w) p = inr b →
  json_parse b = inr (JObj l) →
  load_json (PPath p) w = (inr c, w1) →
  save_json (PPath q) (PBox c) w1 = (inr tt, w2) →
  ∃ w3, load_json (PPath q) w2 = (inr c, w3).
Proof.
  intros Hparse Hf Hj Hload Hsave.
  assert (Hnat : json_plain (PDict c) = true).
  { rewrite load_json_path, (load_json_body_parsed p w b _ Hf Hj) in Hload.
    pose proof (py_of_json_plain (JObj l)) as Hn.
    assert (∃ d0, py_of_json (JObj l) = PDict d0) as [d0 Hd0] by (simpl; eauto).
    rewrite Hd0 in Hn, Hload.
    pose proof Hn as Hn'. simpl in Hn'.
    apply andb_prop in Hn' as [_ Hnd%bool_decide_eq_true].
    rewrite Box_init_dict in Hload by done. by injection Hload as <- _. }
  destruct (json_plain_round_trip _ Hnat) as (j' & Hj' & Hback).
  pose proof Hnat as Hnd. simpl in Hnd.
  apply andb_prop in Hnd as [_ Hnd%bool_decide_eq_true].
  assert (Hs : save_json_body q (PBox c) w1 = (inr tt, w2)).
  { revert Hsave. unfold save_json, ensure_annotations, bind, lift, ret. simpl.
    by destruct (save_json_body q (PBox c) w1) as [[e|[]] w0]. }
  rewrite load_json_path.
  rewrite (save_load_json_body q (PBox c) j' w1 w2 Hparse Hj' Hs).
  rewrite Hback, Box_init_dict by done. eauto.
Qed.

(** *** More on [get_size] *)


(** X12: Within a unit a larger size never prints a smaller figure: the
    rounding to hundredths is monotone. *)
Theorem round_2f_monotone n m den :
  (0 < den)%N → (n ≤ m)%N → (round_2f n den ≤ round_2f m den)%N.
Proof.
  intros Hden Hnm. unfold round_2f.
  pose proof (N.div_mod' (100 * n) den) as En.
  pose proof (N.div_mod' (100 * m) den) as Em.
  pose proof (N.mod_lt (100 * n) den ltac:(lia)) as Ln.
  pose proof (N.mod_lt (100 * m) den ltac:(lia)) as Lm.
  assert (Hq : (100 * n / den ≤ 100 * m / den)%N)
    by (apply N.Div0.div_le_mono; lia).
  set (qn := (100 * n / den)%N) in *. set (rn := (100 * n mod den)%N) in *.
  set (qm := (100 * m / den)%N) in *. set (rm := (100 * m mod den)%N) in *.
  destruct (decide (qn = qm)) as [E|E].
  - rewrite E in *.
    destruct (N.ltb_spec (2 * rn) den), (N.ltb_spec (2 * rm) den),
      (N.ltb_spec den (2 * rn)), (N.ltb_spec den (2 * rm)),
      (N.even qm); lia.
  - destruct (N.ltb_spec (2 * rn) den), (N.ltb_spec (2 * rm) den),
      (N.ltb_spec den (2 * rn)), (N.ltb_spec den (2 * rm)),
      (N.even qn), (N.even qm); lia.
Qed.

(** *** The binary artifacts *)

(** X13: [save_bin] cannot be called: the decorator checks [data] against
    [typing.Any] with [isinstance], which raises [TypeError] for every
    object, so every call fails before the body runs and nothing is
    written or logged. *)
Theorem save_bin_always_raises data a w :
  save_bin data a w =
    (inl (TypeError "typing.Any cannot be used with isinstance()"), w).
Proof. reflexivity. Qed.

(** X14: [load_bin] never returns a value: when the file is read and
    unpickled, the record that it was loaded is logged and the check of
    the result against the return annotation [Any] then raises
    [TypeError]. *)
Theorem load_bin_never_returns :
  (∀ a w x w', load_bin a w ≠ (inr x, w')) ∧
  (∀ p w b x,
     read_file (fs w) p = inr b → joblib_loads b = inr x →
     load_bin (PPath p) w =
       (inl (TypeError "typing.Any cannot be used with isinstance()"),
        add_trace w [EvOpen p Rd;
                     EvLog INFO ("Binary file loaded from: " +:+ path_str p)])).
Proof.
  split.
  - intros a w x w'. unfold load_bin, ensure_annotations, bind, lift, ret.
    destruct a as [| | | |p| | | | |]; simpl; try done.
    by destruct (load_bin_body p w) as [[e|y] w1].
  - intros p w b x Hf Hx.
    unfold load_bin, ensure_annotations, load_bin_body, open_read, bind, emit,
      lift, logger_info, emit, ret. simpl.
    rewrite Hf, Hx. by rewrite add_trace_add_trace.
Qed.

Lemma wf_fsb_correct (f : gmap path (node bytes)) : wf_fsb f = true → wf_fs f.
Proof.
  intros H q n Hq. destruct q as [|s q]; [done|].
  unfold wf_fsb in H. rewrite forallb_forall in H.
  specialize (H (s :: q)).
  destruct (node_at f (parent (s :: q))) as [[|b]|]; [done|..];
    (discriminate H; apply list_elem_of_In, list_elem_of_fmap;
     exists (s :: q, n); split; [done|]; by apply elem_of_map_to_list).
Qed.

End Facts.

(** * The functions on the sample project *)

Example get_size_1023 :
  (get_size (PPath ["model.joblib"]) (with_blob 1023)).1 = inr "1023 bytes".
Proof. vm_compute. reflexivity. Qed.

Example get_size_1024 :
  (get_size (PPath ["model.joblib"]) (with_blob 1024)).1 = inr "~ 1.00 KB".
Proof. vm_compute. reflexivity. Qed.

Example get_size_1152 :
  (get_size (PPath ["model.joblib"]) (with_blob 1152)).1 = inr "~ 1.12 KB".
Proof. vm_compute. reflexivity. Qed.

Example get_size_below_MB :
  (get_size (PPath ["model.joblib"]) (with_blob (1024 ^ 2 - 1))).1
  = inr "~ 1024.00 KB".
Proof. vm_compute. reflexivity. Qed.

Example get_size_MB :
  (get_size (PPath ["model.joblib"]) (with_blob (1024 ^ 2))).1 = inr "~ 1.00 MB".
Proof. vm_compute. reflexivity. Qed.

(** Integer keys and tuples are written as strings and arrays, and come
    back as such: they are not among the objects of [json_native]. *)
Example json_coerces_keys_and_tuples :
  match json_of_py (PDict [(KInt 1, PTuple [PInt 2])]) with
  | inr j => Some (py_of_json j)
  | inl _ => None
  end = Some (PDict [(KStr "1", PList [PInt 2])]).
Proof. reflexivity. Qed.

(** C3: on an empty YAML file the record that the file was loaded
    successfully is written, line 40, before [ConfigBox(content)] is
    attempted, line 41; the call then fails with the empty-document error,
    so the success record stands in the log of a load that did not
    succeed, and nothing is cached. *)
Theorem read_yaml_success_record_on_empty_file :
  read_yaml (PPath params_yaml) sample_world
  = (inl (ValueError "yaml file is empty"),
     World sample_fs ∅
       [EvOpen params_yaml Rd;
        EvLog INFO "yaml file: params.yaml loaded successfully"]).
Proof. vm_compute. reflexivity. Qed.

(** On a valid file the success record precedes the cache assignment. *)
Example read_yaml_order_on_valid_file :
  trace (read_yaml (PPath config_yaml) sample_world).2
  = [EvOpen config_yaml Rd;
     EvLog INFO "yaml file: config/config.yaml loaded successfully";
     EvCache config_yaml].
Proof. vm_compute. reflexivity. Qed.

(** A file with a bare scalar is reported as empty as well. *)
Example read_yaml_scalar_document :
  (read_yaml (PPath ["schema.yaml"]) sample_world).1
  = inl (ValueError "yaml file is empty").
Proof. vm_compute. reflexivity. Qed.

(** C5, counterexample: [artifacts] is a regular file.  Listed itself,
    the call returns normally, reports that the directory exists, and the
    path still is a regular file; listed as the parent of a directory to
    create, the call, and any repetition of it, raises
    [NotADirectoryError]. *)
Lemma create_directories_regular_file :
  create_directories (PList [PStr "artifacts"]) true sample_world
  = (inr tt,
     World sample_fs ∅ [EvLog INFO "Directory already exists at: artifacts"]) ∧
  node_at sample_fs ["artifacts"] = Some (File (SZeros 1024)) ∧
  create_directories (PList [PPath ["artifacts"; "models"]]) true sample_world
  = (inl (OSError ENOTDIR ["artifacts"; "models"]),
     World sample_fs ∅ [EvMkdir ["artifacts"; "models"]]).
Proof. vm_compute. repeat split; reflexivity. Qed.

(** C2, counterexample: [data.json] holds the document [{}], which YAML
    reads as an empty mapping.  The parsed content is empty, and
    [read_yaml] does not fail: it returns an empty [ConfigBox] and caches
    it. *)
Lemma read_yaml_empty_mapping_accepted :
  yaml_safe_load (SJson (JObj [])) = inr (PDict []) ∧
  (read_yaml (PPath data_json) (with_json (JObj []))).1 = inr [] ∧
  yaml_cache (read_yaml (PPath data_json) (with_json (JObj []))).2 !! data_json
  = Some [] ∧
  trace (read_yaml (PPath data_json) (with_json (JObj []))).2
  = [EvOpen data_json Rd;
     EvLog INFO "yaml file: data.json loaded successfully";
     EvCache data_json].
Proof. vm_compute. repeat split; reflexivity. Qed.


(** C7, counterexample: two failing calls that leave no error record.
    Called with a [str], [read_yaml] is refused by the decorator and the
    log is untouched.  On [schema.yaml], which holds the bare scalar
    [hello], [ConfigBox] raises [BoxValueError], and the call raises
    [ValueError("yaml file is empty")] in its place, although the document
    is not empty. *)
Lemma read_yaml_failure_not_logged :
  read_yaml (PStr "config/config.yaml") sample_world
  = (inl (EnsureError (msg_ensure "path_to_yaml")), sample_world) ∧
  yaml_safe_load (SText "hello") = inr (PStr "hello") ∧
  Box_init (L:=sample_libs) (PStr "hello")
  = inl (BoxValueError "Cannot extrapolate Box from string") ∧
  read_yaml (PPath ["schema.yaml"]) sample_world
  = (inl (ValueError "yaml file is empty"),
     World sample_fs ∅
       [EvOpen ["schema.yaml"] Rd;
        EvLog INFO "yaml file: schema.yaml loaded successfully"]).
Proof. vm_compute. repeat split; reflexivity. Qed.


(** ** Instances of the theorems *)

Lemma read_yaml_cache_idempotent_witness :
  ∃ c1 w1,
    read_yaml (PPath config_yaml) sample_world = (inr c1, w1) ∧
    yaml_cache w1 !! config_yaml = Some c1 ∧
    (yaml_cache sample_world !! config_yaml = None →
       c1 = [(KStr "a", PInt 1)] ∧
       w1 = World (fs sample_world)
              (<[config_yaml := [(KStr "a", PInt 1)]]> (yaml_cache sample_world))
              (trace sample_world ++
               [EvOpen config_yaml Rd; EvLog INFO (msg_loaded config_yaml);
                EvCache config_yaml])) ∧
    (∀ c0, yaml_cache sample_world !! config_yaml = Some c0 →
       c1 = c0 ∧ w1 = add_trace sample_world [EvLog INFO (msg_cached config_yaml)]) ∧
    read_yaml (PPath config_yaml) w1 =
      (inr c1,
       add_trace w1
         [EvLog INFO ("yaml file: " +:+ path_str config_yaml +:+ " retrieved from cache")]).
Proof.
  apply (read_yaml_cache_idempotent config_yaml sample_world (SText "a: 1")
           (PDict [(KStr "a", PInt 1)]) [(KStr "a", PInt 1)]);
    reflexivity.
Defined.

Lemma read_yaml_empty_document_witness :
  read_yaml (PPath params_yaml) sample_world =
    (inl (ValueError "yaml file is empty"),
     add_trace sample_world [EvOpen params_yaml Rd; EvLog INFO (msg_loaded params_yaml)]).
Proof.
  apply (λ Hc Hf, proj1 (read_yaml_empty_document params_yaml sample_world
                            (SText "") Hc Hf));
    reflexivity.
Defined.

Lemma read_yaml_failure_logged_witness :
  ∃ pre,
    read_yaml (PPath ["missing.yaml"]) sample_world =
      (inl (OSError ENOENT ["missing.yaml"]),
       add_trace sample_world
         (pre ++ [EvLog ERROR ("Error reading YAML file at "
                               +:+ path_str ["missing.yaml"] +:+ ": "
                               +:+ str_exn (OSError ENOENT ["missing.yaml"]))])) ∧
    (pre = [EvOpen ["missing.yaml"] Rd] ∨
     pre = [EvOpen ["missing.yaml"] Rd; EvLog INFO (msg_loaded ["missing.yaml"])]).
Proof.
  apply (proj1 (read_yaml_failure_logged (PPath ["missing.yaml"]) sample_world)
           ["missing.yaml"] (OSError ENOENT ["missing.yaml"])).
  - reflexivity.
  - reflexivity.
  - left. reflexivity.
  - intros msg. discriminate.
Defined.

Lemma read_yaml_cache_writes_witness :
  (yaml_cache (read_yaml (PPath params_yaml) sample_world).2 = yaml_cache sample_world ∨
   ∃ p c, PPath params_yaml = PPath p ∧ yaml_cache sample_world !! p = None ∧
          (read_yaml (PPath params_yaml) sample_world).1 = inr c ∧
          yaml_cache (read_yaml (PPath params_yaml) sample_world).2
          = <[p := c]> (yaml_cache sample_world)) ∧
  (∀ e, (read_yaml (PPath params_yaml) sample_world).1 = inl e →
     yaml_cache (read_yaml (PPath params_yaml) sample_world).2 = yaml_cache sample_world ∧
     ∀ p w2, PPath params_yaml = PPath p →
       yaml_cache w2 = yaml_cache (read_yaml (PPath params_yaml) sample_world).2 →
       ∃ evs, trace (read_yaml (PPath params_yaml) w2).2
              = (trace w2 ++ EvOpen p Rd :: evs)%list).
Proof.
  apply (read_yaml_cache_writes (PPath params_yaml) sample_world). reflexivity.
Defined.


Lemma create_directories_idempotent_witness :
  (∀ v, v ∈ sample_dirs →
     ∃ p, fspath v = inr p ∧
          is_Some (node_at (fs (create_directories (PList sample_dirs) true sample_world).2) p) ∧
          ((∀ b, node_at (fs sample_world) p ≠ Some (File b)) →
           node_at (fs (create_directories (PList sample_dirs) true sample_world).2) p
           = Some Dir)) ∧
  create_directories (PList sample_dirs) true
    (create_directories (PList sample_dirs) true sample_world).2
  = (inr tt,
     add_trace (create_directories (PList sample_dirs) true sample_world).2
       (exists_records sample_dirs true)).
Proof.
  apply (create_directories_idempotent sample_dirs true sample_world).
  vm_compute. reflexivity.
Defined.




(** ** Instances of the further theorems *)

Lemma sample_fs_wf : wf_fs sample_fs.
Proof. apply wf_fsb_correct. vm_compute. reflexivity. Qed.

Lemma read_yaml_loads_document_witness :
  read_yaml (PPath config_yaml) sample_world =
    (inr [(KStr "a", PInt 1)],
     World (fs sample_world)
       (<[config_yaml := [(KStr "a", PInt 1)]]> (yaml_cache sample_world))
       (trace sample_world ++
        [EvOpen config_yaml Rd;
         EvLog INFO ("yaml file: " +:+ path_str config_yaml +:+ " loaded successfully");
         EvCache config_yaml])).
Proof.
  apply (read_yaml_loads_document config_yaml sample_world (SText "a: 1")
           (PDict [(KStr "a", PInt 1)]));
    reflexivity.
Defined.


Lemma read_yaml_scalar_reported_empty_witness :
  read_yaml (PPath ["schema.yaml"]) sample_world =
    (inl (ValueError "yaml file is empty"),
     add_trace sample_world
       [EvOpen ["schema.yaml"] Rd; EvLog INFO (msg_loaded ["schema.yaml"])]).
Proof.
  apply (read_yaml_scalar_reported_empty ["schema.yaml"] sample_world
           (SText "hello") (PStr "hello"));
    reflexivity.
Defined.

Lemma readers_leave_file_system_witness :
  fs (read_yaml (PPath config_yaml) sample_world).2 = fs sample_world.
Proof.
  apply (proj1 readers_leave_file_system (PPath config_yaml) sample_world
           (read_yaml (PPath config_yaml) sample_world).1).
  reflexivity.
Defined.

Lemma cache_written_by_read_yaml_only_witness :
  yaml_cache (save_json (PPath metrics_json) (PDict sample_metrics) sample_world).2
  = yaml_cache sample_world.
Proof.
  apply (proj1 (proj2 cache_written_by_read_yaml_only) (PPath metrics_json)
           (PDict sample_metrics) sample_world
           (save_json (PPath metrics_json) (PDict sample_metrics) sample_world).1).
  reflexivity.
Defined.

Lemma load_json_scalar_document_witness :
  ∃ msg,
    load_json (PPath data_json) (with_json JNull) =
      (inl (BoxValueError msg),
       add_trace (with_json JNull)
         [EvOpen data_json Rd;
          EvLog INFO ("JSON file loaded successfully from: " +:+ path_str data_json)]).
Proof.
  apply (load_json_scalar_document data_json (with_json JNull) (SJson JNull) JNull);
    reflexivity.
Defined.

Lemma readers_on_missing_path_witness :
  ∃ errno,
    (errno = ENOENT ∨ errno = ENOTDIR) ∧
    str_exn (OSError errno metrics_json)
    = strerror errno +:+ ": '" +:+ path_str metrics_json +:+ "'" ∧
    load_json (PPath metrics_json) sample_world
    = (inl (OSError errno metrics_json), add_trace sample_world [EvOpen metrics_json Rd]) ∧
    load_bin (PPath metrics_json) sample_world
    = (inl (OSError errno metrics_json), add_trace sample_world [EvOpen metrics_json Rd]) ∧
    get_size (PPath metrics_json) sample_world
    = (inl (OSError errno metrics_json), sample_world).
Proof. apply (readers_on_missing_path metrics_json sample_world). reflexivity. Defined.

Lemma save_json_effect_witness :
  (∀ q, q ≠ metrics_json →
     node_at (fs (save_json (PPath metrics_json) (PDict sample_metrics) sample_world).2) q
     = node_at (fs sample_world) q) ∧
  ((save_json (PPath metrics_json) (PDict sample_metrics) sample_world).1 = inr tt →
   ∃ j, json_of_py (PDict sample_metrics) = inr j ∧
        node_at (fs (save_json (PPath metrics_json) (PDict sample_metrics) sample_world).2)
          metrics_json = Some (File (json_print j)) ∧
        trace (save_json (PPath metrics_json) (PDict sample_metrics) sample_world).2
        = (trace sample_world ++
           [EvOpen metrics_json Wr;
            EvLog INFO ("JSON file saved at: " +:+ path_str metrics_json)])%list).
Proof.
  apply (save_json_effect metrics_json (PDict sample_metrics) sample_world).
  reflexivity.
Defined.

Lemma save_json_unserializable_witness :
  save_json (PPath metrics_json) (PDict [(KStr "root", PPath ["artifacts"])]) sample_world =
    (inl (TypeError "Object of type PosixPath is not JSON serializable"),
     World (<[metrics_json := File (json_partial (PDict [(KStr "root", PPath ["artifacts"])]))]>
              (fs sample_world))
       (yaml_cache sample_world) (trace sample_world ++ [EvOpen metrics_json Wr])).
Proof.
  apply (save_json_unserializable metrics_json
           (PDict [(KStr "root", PPath ["artifacts"])])); try reflexivity.
  discriminate.
Defined.

Lemma load_save_load_witness :
  ∃ w3,
    load_json (PPath metrics_json)
      (save_json (PPath metrics_json) (PBox [(KStr "1", PList [PInt 2])])
         (load_json (PPath data_json) (with_json (JObj [("1", JArr [JNum 2])]))).2).2
    = (inr [(KStr "1", PList [PInt 2])], w3).
Proof.
  apply (load_save_load data_json metrics_json
           (with_json (JObj [("1", JArr [JNum 2])]))
           (SJson (JObj [("1", JArr [JNum 2])])) [("1", JArr [JNum 2])]
           [(KStr "1", PList [PInt 2])]
           (load_json (PPath data_json) (with_json (JObj [("1", JArr [JNum 2])]))).2).
  - intros j. reflexivity.
  - reflexivity.
  - reflexivity.
  - reflexivity.
  - vm_compute. reflexivity.
Defined.


Lemma round_2f_monotone_witness : (round_2f 1152 1024 ≤ round_2f 1153 1024)%N.
Proof. apply (round_2f_monotone 1152 1153 1024); lia. Defined.

Lemma load_bin_never_returns_witness :
  load_bin (PPath ["model.joblib"]) (with_pickle (PInt 7)) =
    (inl (TypeError "typing.Any cannot be used with isinstance()"),
     add_trace (with_pickle (PInt 7))
       [EvOpen ["model.joblib"] Rd;
        EvLog INFO ("Binary file loaded from: " +:+ path_str ["model.joblib"])]).
Proof.
  apply (proj2 load_bin_never_returns ["model.joblib"] (with_pickle (PInt 7))
           (SPickle (PInt 7)) (PInt 7));
    reflexivity.
Defined.

Lemma create_directories_only_adds_witness :
  mkdirs_only sample_world
    (create_directories (PList [PPath ["artifacts"; "models"]]) true sample_world).2.
Proof.
  apply (create_directories_only_adds (PList [PPath ["artifacts"; "models"]]) true
           sample_world
           (create_directories (PList [PPath ["artifacts"; "models"]]) true sample_world).1).
  reflexivity.
Defined.

Lemma create_directories_parents_witness :
  wf_fs (fs (create_directories (PList sample_dirs) true sample_world).2) ∧
  (@inr exn unit tt = inr tt →
   ∀ v p k, v ∈ sample_dirs → fspath v = inr p → k < length p →
     node_at (fs (create_directories (PList sample_dirs) true sample_world).2) (take k p)
     = Some Dir).
Proof.
  apply (create_directories_parents sample_dirs true sample_world).
  - apply sample_fs_wf.
  - vm_compute. reflexivity.
Defined.

Lemma create_directories_records_witness :
  info_lines (trace (create_directories (PList sample_dirs) true sample_world).2)
  = info_lines (trace sample_world) + (if true then length sample_dirs else 0) ∧
  error_lines (trace (create_directories (PList sample_dirs) true sample_world).2)
  = error_lines (trace sample_world).
Proof.
  apply (create_directories_records sample_dirs true sample_world).
  vm_compute. reflexivity.
Defined.

Lemma template_loop_keeps_content_witness :
  (∀ q, node_at (fs sample_world) q = Some Dir →
     node_at (fs (template_loop list_of_files sample_world).2) q = Some Dir) ∧
  (∀ q b, node_at (fs sample_world) q = Some (File b) → size_of b ≠ 0%N →
     node_at (fs (template_loop list_of_files sample_world).2) q = Some (File b)) ∧
  (∀ q b, node_at (fs sample_world) q = Some (File b) →
     ∃ b', node_at (fs (template_loop list_of_files sample_world).2) q = Some (File b')) ∧
  yaml_cache (template_loop list_of_files sample_world).2 = yaml_cache sample_world.
Proof.
  apply (template_loop_keeps_content list_of_files sample_world
           (template_loop list_of_files sample_world).1).
  vm_compute. reflexivity.
Defined.

Lemma template_loop_creates_witness :
  (∀ p, p ∈ list_of_files →
     is_Some (node_at (fs (template_loop list_of_files sample_world).2) p) ∧
     node_at (fs (template_loop list_of_files sample_world).2) (parent p) = Some Dir) ∧
  (wf_fs (fs sample_world) → wf_fs (fs (template_loop list_of_files sample_world).2)).
Proof.
  apply (template_loop_creates list_of_files sample_world).
  vm_compute. reflexivity.
Defined.

Lemma template_loop_idempotent_witness :
  ∃ evs,
    template_loop list_of_files (template_loop list_of_files sample_world).2
    = (inr tt, add_trace (template_loop list_of_files sample_world).2 evs).
Proof.
  apply (template_loop_idempotent list_of_files sample_world).
  - apply sample_fs_wf.
  - vm_compute. reflexivity.
Defined.
